(** * The component pool of EnTT: [default_pool] of src/entt/entity/pool.hpp

    A pool is a storage of component instances, one per entity, extended
    with three signal hubs ([construction], [destruction], [update]).  The
    embedding below runs the member functions of [default_pool] in a small
    monad over the state of the program: every call that the pool makes on
    its storage base class or on one of its signal hubs is recorded, in
    order, so that statements about ordering and about counts of calls can
    be made and checked by evaluation.  Listeners are state transformers:
    what a listener does to the pool when it calls back into it is part of
    its effect on the state, and is not recorded among the calls of the
    operation that published the signal. *)

From Stdlib Require Import List NArith Bool Arith Lia Permutation.
Import ListNotations.

Set Implicit Arguments.

(** Entities are opaque identifiers (the template parameter [Entity], an
    unsigned integral type); only equality on them is ever used. *)
Definition entity := N.

(** A listener is held by a signal hub as a delegate; the identity of a
    delegate is all that the hub stores. *)
Definition delegate := nat.

(** The three signal hubs that [default_pool] declares as private members. *)
Inductive signal : Type :=
| Construction
| Destruction
| Update.

Section Pool.

(** [Registry] is [basic_registry<entity_type>], which the pool only
    passes on to the listeners.  [Component] is the template parameter
    [Type]; [Args] is what a component is constructed from; [Exn] is what
    a constructor may throw; [User] is the state of the rest of the
    program, which listeners may read and write. *)
Context {Registry Component Args Exn User : Type}.

(** [is_eto_eligible_v<object_type>], from core/type_traits.hpp: a
    compile-time constant of the component type, true for the zero-size
    types. *)
Variable is_eto_eligible_v : bool.

(** The constructor of the component type: it yields an instance or it
    throws. *)
Variable construct : Args -> Exn + Component.

(** ** Storage *)

(** Modelled from the spec: the class [storage<Entity, Type>] of
    storage.hpp, the base class of [default_pool], is a dense array of
    entries, one per entity, iterated contiguously. *)
Definition storage : Type := list (entity * Component).

(** How a call ends: it returns, the constructor of the component throws,
    or a precondition is broken (undefined behaviour; an assertion aborts
    in debug mode). *)
Inductive outcome (A : Type) : Type :=
| Done (a : A)
| Thrown (x : Exn)
| Violation.
Arguments Thrown {A} x.
Arguments Violation {A}.

(** Modelled from the spec: [begin()]/[end()] of the storage iterate over
    the entities currently present. *)
Definition storage_entities (s : storage) : list entity := map fst s.

(** [std::distance(this->begin(), this->end())]. *)
Definition storage_size (s : storage) : nat := length (storage_entities s).

(** Modelled from the spec: membership test of the storage. *)
Definition storage_contains (e : entity) (s : storage) : bool :=
  existsb (N.eqb e) (storage_entities s).

(** Modelled from the spec: [storage::get(entity)], the instance bound to
    an entity; [None] when the entity is not in the storage. *)
Fixpoint storage_get (e : entity) (s : storage) : option Component :=
  match s with
  | [] => None
  | (e', v) :: t => if N.eqb e e' then Some v else storage_get e t
  end.

(** Writing through the reference that [storage::get] returned. *)
Fixpoint storage_set (e : entity) (v : Component) (s : storage) : storage :=
  match s with
  | [] => []
  | (e', v') :: t =>
      if N.eqb e e' then (e', v) :: t else (e', v') :: storage_set e v t
  end.

(** Modelled from the spec: [storage::emplace(entity, args...)] constructs
    the instance first and registers the entity afterwards, so that a
    constructor that throws leaves no entry behind. *)
Definition storage_emplace (e : entity) (args : Args) (s : storage)
  : outcome storage :=
  match construct args with
  | inl x => Thrown x
  | inr v => if storage_contains e s then Violation else Done (s ++ [(e, v)])
  end.

(** Modelled from the spec: the instances of a batch insert, one per
    entity of the range, or the first failure of the constructor. *)
Fixpoint construct_all (es : list entity) (args : Args)
  : Exn + list (entity * Component) :=
  match es with
  | [] => inr []
  | e :: t =>
      match construct args with
      | inl x => inl x
      | inr v =>
          match construct_all t args with
          | inl x => inl x
          | inr l => inr ((e, v) :: l)
          end
      end
  end.

(** Modelled from the spec: an entity is in the storage at most once, so a
    range to insert names no entity twice. *)
Fixpoint distinct (es : list entity) : bool :=
  match es with
  | [] => true
  | e :: t => negb (existsb (N.eqb e) t) && distinct t
  end.

(** Modelled from the spec: [storage::insert(first, last, args...)], one
    batch operation that appends an entry per entity of the range; the
    instances are constructed before any entity is registered. *)
Definition storage_insert (es : list entity) (args : Args) (s : storage)
  : outcome storage :=
  match construct_all es args with
  | inl x => Thrown x
  | inr l =>
      if existsb (fun e => storage_contains e s) es || negb (distinct es)
      then Violation
      else Done (s ++ l)
  end.

(** Modelled from the spec: [storage::erase(entity)] in constant time on a
    dense array: the last entry moves into the slot of the erased one and
    the array shrinks by one. *)
Fixpoint storage_erase (e : entity) (s : storage) : outcome storage :=
  match s with
  | [] => Violation
  | (e', v) :: t =>
      if N.eqb e e'
      then Done (match rev t with
                 | [] => []
                 | l :: r => l :: rev r
                 end)
      else match storage_erase e t with
           | Done t' => Done ((e', v) :: t')
           | Thrown x => Thrown x
           | Violation => Violation
           end
  end.

(** Modelled from the spec: [storage::clear()], one bulk operation. *)
Definition storage_clear (s : storage) : storage := [].

(** ** State *)

(** The pool (its storage base and its three signal hubs, each an ordered
    list of delegates) together with the state of the rest of the
    program. *)
Record world : Type := World {
  instances : storage;
  construction : list delegate;
  destruction : list delegate;
  update : list delegate;
  user : User
}.

Definition with_instances (s : storage) (w : world) : world :=
  World s (construction w) (destruction w) (update w) (user w).

(** The hub behind each signal. *)
Definition sigh (k : signal) (w : world) : list delegate :=
  match k with
  | Construction => construction w
  | Destruction => destruction w
  | Update => update w
  end.

(** What a listener does when it is invoked with the registry and the
    entity: listeners receive the registry and may therefore change
    anything, this pool included. *)
Variable listener : delegate -> Registry -> entity -> world -> world.

(** ** Calls made by the pool *)

Inductive event : Type :=
| StorageEmplace (e : entity)
| StorageInsert (es : list entity)
| StorageErase (e : entity)
| StorageClear
| StorageGet (e : entity)
| Publish (k : signal) (owner : Registry) (e : entity)
          (invoked : list delegate).

Record result (A : Type) : Type := Result {
  outcome_of : outcome A;
  final : world;
  calls : list event
}.

(** State, failure and the record of calls. *)
Definition M (A : Type) : Type := world -> result A.

Definition ret {A} (a : A) : M A := fun w => Result (Done a) w [].

Definition bind {A B} (m : M A) (f : A -> M B) : M B :=
  fun w =>
    let r := m w in
    match outcome_of r with
    | Done a =>
        let r' := f a (final r) in
        Result (outcome_of r') (final r') (calls r ++ calls r')
    | Thrown x => Result (Thrown x) (final r) (calls r)
    | Violation => Result Violation (final r) (calls r)
    end.

Notation "x <- m ;; k" := (bind m (fun x => k))
  (at level 61, m at next level, right associativity).
Notation "m ;; k" := (bind m (fun _ => k))
  (at level 61, right associativity).

(** A call on the storage base class that may change it.  When the
    storage rejects the call, the state kept is the one the call was made
    in: what a rejected [emplace] or [insert] may already have written is
    not modelled, and nothing is stated about it. *)
Definition on_storage (ev : event) (op : storage -> outcome storage)
  : M unit :=
  fun w =>
    match op (instances w) with
    | Done s => Result (Done tt) (with_instances s w) [ev]
    | Thrown x => Result (Thrown x) w [ev]
    | Violation => Result Violation w [ev]
    end.

(** [this->get(entity)]. *)
Definition get (e : entity) : M Component :=
  fun w =>
    match storage_get e (instances w) with
    | Some v => Result (Done v) w [StorageGet e]
    | None => Result Violation w [StorageGet e]
    end.

(** Modelled from the spec: [sigh::empty()], whether no listener is
    registered. *)
Definition empty (k : signal) : M bool :=
  fun w => Result (Done (match sigh k w with [] => true | _ => false end)) w [].

(** The listeners of a list, invoked one after the other. *)
Definition invoke_all (ds : list delegate) (owner : Registry) (e : entity)
           (w : world) : world :=
  fold_left (fun w' d => listener d owner e w') ds w.

(** Modelled from the spec: [sigh::publish(owner, entity)] invokes the
    listeners registered at the time of the call, in subscription
    order. *)
Definition publish (k : signal) (owner : Registry) (e : entity) : M unit :=
  fun w =>
    Result (Done tt) (invoke_all (sigh k w) owner e w)
           [Publish k owner e (sigh k w)].

(** The loop [for(; first != last; ++first)] over the entities of a range. *)
Fixpoint for_each (es : list entity) (body : entity -> M unit) : M unit :=
  match es with
  | [] => ret tt
  | e :: t => body e ;; for_each t body
  end.

(** [std::distance(first, last) == std::distance(this->begin(), this->end())] *)
Definition same_distance (es : list entity) : M bool :=
  fun w => Result (Done (Nat.eqb (length es) (storage_size (instances w)))) w [].

(** One function of [patch] applied to the instance that
    [this->get(entity)] refers to. *)
Definition apply_func (e : entity) (f : Component -> Component) : M unit :=
  v <- get e ;;
  (fun w => Result (Done tt)
                   (with_instances (storage_set e (f v) (instances w)) w) []).

(** The fold [(func(this->get(entity)), ...)] of [patch]: the functions
    are applied from left to right. *)
Fixpoint apply_funcs (e : entity) (func : list (Component -> Component))
  : M unit :=
  match func with
  | [] => ret tt
  | f :: t => apply_func e f ;; apply_funcs e t
  end.

(** ** The member functions of [default_pool] *)

(** The sinks: a sink is bound to one of the hubs and registers
    nothing by itself. *)
Definition on_construct : signal := Construction.
Definition on_update : signal := Update.
Definition on_destroy : signal := Destruction.

(** Modelled from the spec: connecting a listener through a sink appends
    it to the hub. *)
Definition connect (k : signal) (d : delegate) (w : world) : world :=
  match k with
  | Construction =>
      World (instances w) (construction w ++ [d]) (destruction w) (update w)
            (user w)
  | Destruction =>
      World (instances w) (construction w) (destruction w ++ [d]) (update w)
            (user w)
  | Update =>
      World (instances w) (construction w) (destruction w) (update w ++ [d])
            (user w)
  end.

(** [emplace(owner, entity, args...)]: a reference to the instance, or
    nothing for a zero-size type. *)
Definition emplace (owner : Registry) (e : entity) (args : Args)
  : M (option Component) :=
  on_storage (StorageEmplace e) (storage_emplace e args) ;;
  publish Construction owner e ;;
  if negb is_eto_eligible_v
  then v <- get e ;; ret (Some v)
  else ret None.

(** [insert(owner, first, last, args...)]. *)
Definition insert (owner : Registry) (es : list entity) (args : Args)
  : M unit :=
  on_storage (StorageInsert es) (storage_insert es args) ;;
  none <- empty Construction ;;
  if negb none
  then for_each es (fun e => publish Construction owner e)
  else ret tt.

(** [erase(owner, entity)]. *)
Definition erase (owner : Registry) (e : entity) : M unit :=
  publish Destruction owner e ;;
  on_storage (StorageErase e) (storage_erase e).

(** [erase(owner, first, last)]. *)
Definition erase_range (owner : Registry) (es : list entity) : M unit :=
  same <- same_distance es ;;
  if same
  then
    none <- empty Destruction ;;
    (if negb none
     then for_each es (fun e => publish Destruction owner e)
     else ret tt) ;;
    on_storage StorageClear (fun s => Done (storage_clear s))
  else
    for_each es (fun e => erase owner e).

(** The fast path of [erase(owner, first, last)] up to the call of
    [clear], named for the statements below. *)
Definition signal_all (owner : Registry) (es : list entity) : M unit :=
  none <- empty Destruction ;;
  if negb none
  then for_each es (fun e => publish Destruction owner e)
  else ret tt.

(** [patch(owner, entity, func...)]. *)
Definition patch (owner : Registry) (e : entity)
           (func : list (Component -> Component)) : M (option Component) :=
  if is_eto_eligible_v
  then publish Update owner e ;; ret None
  else
    apply_funcs e func ;;
    publish Update owner e ;;
    v <- get e ;;
    ret (Some v).

(** ** Reading a record of calls *)

(** The signals published, in order: hub, registry and entity. *)
Fixpoint signals (l : list event) : list (signal * Registry * entity) :=
  match l with
  | [] => []
  | Publish k owner e _ :: t => (k, owner, e) :: signals t
  | _ :: t => signals t
  end.

(** The calls made on the storage base class, in order. *)
Fixpoint storage_calls (l : list event) : list event :=
  match l with
  | [] => []
  | Publish _ _ _ _ :: t => storage_calls t
  | ev :: t => ev :: storage_calls t
  end.

(** How many listeners were invoked in all. *)
Fixpoint invocations (l : list event) : nat :=
  match l with
  | [] => 0
  | Publish _ _ _ ds :: t => length ds + invocations t
  | _ :: t => invocations t
  end.

(** The state once a loop of [publish] over a range has run: each signal
    reaches the listeners registered when it is published. *)
Definition publish_loop (k : signal) (owner : Registry) (es : list entity)
           (w : world) : world :=
  fold_left (fun w' e => invoke_all (sigh k w') owner e w') es w.

(** A listener that neither adds an entity to the pool nor takes one away,
    and that leaves the destruction hub as it is; it may still change the
    instances in place, the other hubs and the rest of the program. *)
Definition quiet (d : delegate) : Prop :=
  forall owner e w,
    storage_entities (instances (listener d owner e w))
    = storage_entities (instances w) /\
    destruction (listener d owner e w) = destruction w.

(** A listener that leaves the storage of the pool and the construction
    hub exactly as they are; it may change the other hubs and the rest of
    the program. *)
Definition steady (d : delegate) : Prop :=
  forall owner e w,
    instances (listener d owner e w) = instances w /\
    construction (listener d owner e w) = construction w.

(** One call of [emplace] per entity of a range, in the order of the
    range, the returned references dropped. *)
Definition emplace_each (owner : Registry) (es : list entity) (args : Args)
  : M unit :=
  for_each es (fun e => emplace owner e args ;; ret tt).

(** The calls of the slow path of [erase(owner, first, last)] on a range
    while the destruction hub holds the listeners [ds]. *)
Definition erase_trace (owner : Registry) (ds : list delegate)
           (es : list entity) : list event :=
  flat_map (fun e => [Publish Destruction owner e ds; StorageErase e]) es.

(** A listener that leaves the destruction hub as it is and takes none of
    the entities of a range out of the pool; it may add entities, change
    instances in place, and change the other hubs and the rest of the
    program. *)
Definition harmless (es : list entity) (d : delegate) : Prop :=
  forall owner e w,
    destruction (listener d owner e w) = destruction w /\
    (forall x,
        In x es ->
        storage_contains x (instances w) = true ->
        storage_contains x (instances (listener d owner e w)) = true).

End Pool.

Arguments Thrown {Exn A} x.
Arguments Violation {Exn A}.

(** ** A pool of natural numbers

    A concrete program on which the statements below are run: components
    are natural numbers, constructed from a natural number; the
    constructor throws on [0].  Two listeners do something: a probe that
    notes whether the entity it is called for is in the storage, and one
    that adds [100] to the instance of the entity in place. *)
Module Sample.

Definition registry : Type := nat.
Definition notes : Type := list (entity * bool).
Definition state : Type := @world nat notes.

Definition construct (a : nat) : nat + nat :=
  match a with
  | 0 => inl 22
  | S _ => inr a
  end.

Definition probe : delegate := 0.
Definition bump : delegate := 1.

Definition listener (d : delegate) (owner : registry) (e : entity)
           (w : state) : state :=
  match d with
  | 0 => World (instances w) (construction w) (destruction w) (update w)
               (user w ++ [(e, storage_contains e (instances w))])
  | 1 => match storage_get e (instances w) with
         | Some v => with_instances (storage_set e (v + 100) (instances w)) w
         | None => w
         end
  | _ => w
  end.

(** Entities [1] and [2] with instances [10] and [20]; no listener. *)
Definition two : state := World [(1%N, 10); (2%N, 20)] [] [] [] [].

(** The same pool with the probe connected to every hub. *)
Definition probed : state :=
  connect on_destroy probe
    (connect on_update probe (connect on_construct probe two)).

(** The same pool with the in-place listener on construction and update. *)
Definition bumped : state :=
  connect on_update bump (connect on_construct bump two).

(** A pool of a zero-size component, whose only listener is the probe,
    connected to every hub. *)
Definition tag_state : Type := @world unit notes.

Definition tag_listener (d : delegate) (owner : registry) (e : entity)
           (w : tag_state) : tag_state :=
  World (instances w) (construction w) (destruction w) (update w)
        (user w ++ [(e, storage_contains e (instances w))]).

Definition tag_construct (a : nat) : nat + unit := inr tt.

Definition tags : tag_state :=
  World [(1%N, tt); (2%N, tt)] [probe] [probe] [probe] [].

End Sample.

(** ** The selection of a pool for a component type

    The class template [pool<Entity, Type>] of pool.hpp computes, from a
    component type, the pool type [pool<Entity, Type>::type] and the view
    type [pool<Entity, Type>::view], with the traits [std::is_const_v],
    [std::remove_const_t] and [std::conditional_t]; [default_pool] checks
    its object type with [std::decay_t].  Types are the cv-qualified
    object types and the references to them; array and function types are
    left out. *)
Module Traits.

(** A class or scalar type with its top-level qualifiers. *)
Record qualified : Type := Qualified {
  name : nat;
  has_const : bool;
  has_volatile : bool
}.

Inductive cpp_type : Type :=
| Object (q : qualified)
| LvalueRef (q : qualified)
| RvalueRef (q : qualified).

Definition qualified_eqb (a b : qualified) : bool :=
  Nat.eqb (name a) (name b)
  && Bool.eqb (has_const a) (has_const b)
  && Bool.eqb (has_volatile a) (has_volatile b).

(** [std::is_same_v]. *)
Definition is_same_v (a b : cpp_type) : bool :=
  match a, b with
  | Object p, Object q => qualified_eqb p q
  | LvalueRef p, LvalueRef q => qualified_eqb p q
  | RvalueRef p, RvalueRef q => qualified_eqb p q
  | _, _ => false
  end.

(** [std::is_const_v]: a reference type is never const. *)
Definition is_const_v (t : cpp_type) : bool :=
  match t with
  | Object q => has_const q
  | _ => false
  end.

(** [std::remove_const_t]: the top-level const is removed. *)
Definition remove_const_t (t : cpp_type) : cpp_type :=
  match t with
  | Object q => Object (Qualified (name q) false (has_volatile q))
  | _ => t
  end.

(** [std::decay_t] on these types: the reference goes, then the
    qualifiers. *)
Definition decay_t (t : cpp_type) : cpp_type :=
  match t with
  | Object q | LvalueRef q | RvalueRef q =>
      Object (Qualified (name q) false false)
  end.

(** An instance of [default_pool<Entity, Type>], const-qualified or not. *)
Record pool_type : Type := PoolType {
  const_qualified : bool;
  object_type : cpp_type
}.

(** The [static_assert] of [default_pool]:
    [std::is_same_v<Type, std::decay_t<Type>>]. *)
Definition valid_object_type (t : cpp_type) : bool :=
  is_same_v t (decay_t t).

(** [pool<Entity, Type>::type]. *)
Definition pool_t (t : cpp_type) : pool_type :=
  if is_const_v t
  then PoolType true (remove_const_t t)
  else PoolType false t.

(** [pool<Entity, Type>::view], declared as [type]. *)
Definition view_t (t : cpp_type) : pool_type := pool_t t.

End Traits.

(** ** Listeners that call back into the pool

    A second concrete program, with listeners that change the pool they
    are called from: a recruiter that connects a further listener to the
    destruction hub once the pool is down to two entities, and a spawner
    that adds the entity [99] when the pool does not hold it. *)
Module Reentrant.

Definition state : Type := @world nat unit.

Definition construct (a : nat) : nat + nat := inr a.

Definition recruiter : delegate := 0.
Definition recruit : delegate := 1.
Definition spawner : delegate := 2.

Definition listener (d : delegate) (owner : nat) (e : entity) (w : state)
  : state :=
  match d with
  | 0 => if Nat.eqb (storage_size (instances w)) 2
         then connect on_destroy recruit w
         else w
  | 2 => if storage_contains 99%N (instances w)
         then w
         else with_instances (instances w ++ [(99%N, 0)]) w
  | _ => w
  end.

(** Entities [1], [2] and [3]; the recruiter listens to destruction. *)
Definition recruiting : state :=
  World [(1%N, 10); (2%N, 20); (3%N, 30)] [] [recruiter] [] tt.

(** Entities [1] and [2]; the spawner listens to destruction. *)
Definition spawning : state :=
  World [(1%N, 10); (2%N, 20)] [] [spawner] [] tt.

End Reentrant.

(** * Properties *)

Unset Implicit Arguments.

Section StorageFacts.

Context {Component : Type}.
Implicit Types (s : @storage Component) (e : entity) (v : Component).

Lemma storage_contains_In e s :
  storage_contains e s = true <-> In e (storage_entities s).
Proof.
  unfold storage_contains. rewrite existsb_exists. split.
  - intros (x & Hx & Heq). apply N.eqb_eq in Heq. now subst.
  - intros H. exists e. split; [assumption | apply N.eqb_refl].
Qed.

Lemma storage_get_contains e s v :
  storage_get e s = Some v -> storage_contains e s = true.
Proof.
  induction s as [|[e' v'] t IH]; simpl; [discriminate|].
  unfold storage_contains; simpl.
  destruct (N.eqb e e'); simpl; [reflexivity|].
  intros H. now apply IH.
Qed.

Lemma storage_get_emplaced e v s :
  storage_contains e s = false -> storage_get e (s ++ [(e, v)]) = Some v.
Proof.
  induction s as [|[e' v'] t IH]; simpl.
  - intros _. now rewrite N.eqb_refl.
  - unfold storage_contains; simpl.
    destruct (N.eqb e e'); simpl; [discriminate|]. exact IH.
Qed.

Lemma storage_get_set e v s :
  storage_contains e s = true -> storage_get e (storage_set e v s) = Some v.
Proof.
  induction s as [|[e' v'] t IH]; simpl.
  - discriminate.
  - unfold storage_contains; simpl.
    destruct (N.eqb e e') eqn:E; simpl; rewrite E; [reflexivity|].
    exact IH.
Qed.

Lemma storage_set_set e v v' s :
  storage_set e v' (storage_set e v s) = storage_set e v' s.
Proof.
  induction s as [|[e' v0] t IH]; simpl; [reflexivity|].
  destruct (N.eqb e e') eqn:E; simpl; rewrite E; [reflexivity|].
  now rewrite IH.
Qed.

Lemma storage_set_same e v s :
  storage_get e s = Some v -> storage_set e v s = s.
Proof.
  induction s as [|[e' v0] t IH]; simpl; [reflexivity|].
  destruct (N.eqb e e').
  - intros H. now injection H as ->.
  - intros H. now rewrite IH.
Qed.

(** The move of the last entry into a freed slot keeps the entries. *)
Lemma last_to_front_perm (t : @storage Component) :
  Permutation (match rev t with [] => [] | l :: r => l :: rev r end) t.
Proof.
  destruct (rev t) as [|l r] eqn:E.
  - apply (f_equal (@rev _)) in E. rewrite rev_involutive in E.
    now subst.
  - apply (f_equal (@rev _)) in E. rewrite rev_involutive in E.
    subst t. simpl. apply Permutation_cons_append.
Qed.

(** Erasing an entity that is present succeeds and takes exactly one
    entry of that entity away. *)
Lemma storage_erase_present (Exn : Type) e s :
  storage_contains e s = true ->
  exists s', storage_erase (Exn := Exn) e s = Done s' /\
             Permutation (e :: storage_entities s') (storage_entities s).
Proof.
  induction s as [|[e' v'] t IH].
  - discriminate.
  - unfold storage_contains. simpl.
    destruct (N.eqb e e') eqn:E; simpl.
    + intros _. apply N.eqb_eq in E. subst e'.
      eexists. split; [reflexivity|].
      apply perm_skip. unfold storage_entities.
      apply Permutation_map, last_to_front_perm.
    + intros H. destruct (IH H) as (t' & -> & Hp).
      eexists. split; [reflexivity|]. simpl.
      rewrite perm_swap. now apply perm_skip.
Qed.

End StorageFacts.

Section PoolFacts.

Context {Registry Component Args Exn User : Type}.
Variable is_eto_eligible_v : bool.
Variable construct : Args -> Exn + Component.
Variable listener :
  delegate -> Registry -> entity -> @world Component User -> @world Component User.

Local Abbreviation world := (@world Component User).
Local Abbreviation emplace := (emplace is_eto_eligible_v construct listener).
Local Abbreviation insert := (insert construct listener).
Local Abbreviation erase := (erase (Exn := Exn) listener).
Local Abbreviation erase_range := (erase_range (Exn := Exn) listener).
Local Abbreviation patch := (patch (Exn := Exn) is_eto_eligible_v listener).
Local Abbreviation invoke_all := (invoke_all listener).
Local Abbreviation publish_loop := (publish_loop listener).
Local Abbreviation for_each :=
  (for_each (Registry := Registry) (Component := Component) (Exn := Exn)
            (User := User)).
Local Abbreviation M :=
  (M (Registry := Registry) (Component := Component) (Exn := Exn)
     (User := User)).
Local Abbreviation publish := (publish (Exn := Exn) listener).
Local Abbreviation signal_all := (signal_all (Exn := Exn) listener).
Local Abbreviation apply_funcs :=
  (apply_funcs (Registry := Registry) (Exn := Exn) (User := User)).

Implicit Types (w : world) (e : entity) (es : list entity) (owner : Registry).

Lemma with_instances_same w : with_instances (instances w) w = w.
Proof. now destruct w. Qed.

(** How a sequence runs once its first part is known. *)
Lemma bind_done {A B} (m : M A) (k : A -> M B) w a w' l :
  m w = Result (Exn := Exn) (Registry := Registry) (Done a) w' l ->
  bind m k w
  = Result (outcome_of (k a w')) (final (k a w')) (l ++ calls (k a w')).
Proof. intros H. unfold bind. now rewrite H. Qed.

Lemma bind_thrown {A B} (m : M A) (k : A -> M B) w x w' l :
  m w = Result (Exn := Exn) (Registry := Registry) (Thrown x) w' l ->
  bind m k w = Result (Thrown x) w' l.
Proof. intros H. unfold bind. now rewrite H. Qed.

Lemma apply_func_run e (f : Component -> Component) w v0 :
  storage_get e (instances w) = Some v0 ->
  apply_func (Registry := Registry) (Exn := Exn) e f w
  = Result (Done tt)
      (with_instances (storage_set e (f v0) (instances w)) w)
      [StorageGet e].
Proof.
  intros Hget. unfold apply_func, bind, get. now rewrite Hget.
Qed.

(** The functions of a [patch], applied in order to a present entity. *)
Lemma apply_funcs_run e (func : list (Component -> Component)) :
  forall w v0,
    storage_get e (instances w) = Some v0 ->
    apply_funcs e func w
    = Result (Done tt)
        (with_instances
           (storage_set e (fold_left (fun v f => f v) func v0) (instances w)) w)
        (repeat (StorageGet e) (length func)).
Proof.
  induction func as [|f fs IH]; intros w v0 Hget.
  - simpl. unfold ret.
    now rewrite (storage_set_same _ _ _ Hget), with_instances_same.
  - cbn [apply_funcs fold_left length repeat].
    rewrite (bind_done _ _ _ _ _ _ (apply_func_run e f w v0 Hget)).
    rewrite (IH _ (f v0)).
    + cbn [outcome_of final calls with_instances instances app].
      now rewrite storage_set_set.
    + cbn [with_instances instances].
      apply storage_get_set. eapply storage_get_contains, Hget.
Qed.

(** ** Single-entity operations *)

Lemma storage_emplace_run e args v w :
  storage_contains e (instances w) = false ->
  construct args = inr v ->
  on_storage (Registry := Registry) (StorageEmplace e)
             (storage_emplace construct e args) w
  = Result (Done tt) (with_instances (instances w ++ [(e, v)]) w)
           [StorageEmplace e].
Proof.
  intros Hn Hc. unfold on_storage, storage_emplace. now rewrite Hc, Hn.
Qed.

Lemma get_run e w :
  get (Registry := Registry) (Exn := Exn) e w
  = Result (match storage_get e (instances w) with
            | Some v => Done v
            | None => Violation
            end) w [StorageGet e].
Proof. unfold get. now destruct (storage_get e (instances w)). Qed.

Lemma publish_run k owner e w :
  publish k owner e w
  = Result (Done tt) (invoke_all (sigh k w) owner e w)
           [Publish k owner e (sigh k w)].
Proof. reflexivity. Qed.

Lemma empty_run k w :
  empty (Registry := Registry) (Exn := Exn) k w
  = Result (Done (match sigh k w with [] => true | _ :: _ => false end)) w [].
Proof. reflexivity. Qed.

(** What [emplace] does on an absent entity whose instance can be
    constructed, whatever the listeners do. *)
Lemma emplace_run owner e args v w :
  storage_contains e (instances w) = false ->
  construct args = inr v ->
  let stored := with_instances (instances w ++ [(e, v)]) w in
  let after := invoke_all (construction w) owner e stored in
  emplace owner e args w
  = Result (if is_eto_eligible_v then Done None
            else match storage_get e (instances after) with
                 | Some v' => Done (Some v')
                 | None => Violation
                 end)
           after
           (StorageEmplace e :: Publish Construction owner e (construction w)
              :: (if is_eto_eligible_v then [] else [StorageGet e])).
Proof.
  intros Hn Hc stored after. unfold emplace.
  rewrite (bind_done _ _ _ _ _ _ (storage_emplace_run e args v w Hn Hc)).
  fold stored.
  rewrite (bind_done _ _ _ _ _ _ (publish_run Construction owner e stored)).
  change (invoke_all (sigh Construction stored) owner e stored) with after.
  destruct is_eto_eligible_v; cbn [negb].
  - reflexivity.
  - unfold bind. rewrite get_run. cbn [outcome_of final calls].
    now destruct (storage_get e (instances after)).
Qed.

(** What [patch] does on a present entity of a type that is not of zero
    size, whatever the listeners do. *)
Lemma patch_run owner e func v0 w :
  is_eto_eligible_v = false ->
  storage_get e (instances w) = Some v0 ->
  let v1 := fold_left (fun v f => f v) func v0 in
  let patched := with_instances (storage_set e v1 (instances w)) w in
  let after := invoke_all (update w) owner e patched in
  patch owner e func w
  = Result (match storage_get e (instances after) with
            | Some v' => Done (Some v')
            | None => Violation
            end)
           after
           (repeat (StorageGet e) (length func)
              ++ [Publish Update owner e (update w); StorageGet e]).
Proof.
  intros Heto Hget v1 patched after. unfold patch. rewrite Heto.
  rewrite (bind_done _ _ _ _ _ _ (apply_funcs_run e func w v0 Hget)).
  fold v1. fold patched.
  rewrite (bind_done _ _ _ _ _ _ (publish_run Update owner e patched)).
  change (invoke_all (sigh Update patched) owner e patched) with after.
  unfold bind. rewrite get_run. cbn [outcome_of final calls].
  now destruct (storage_get e (instances after)).
Qed.

Lemma signals_app (l l' : list (event (Registry := Registry))) :
  signals (l ++ l') = signals l ++ signals l'.
Proof.
  induction l as [|ev t IH]; [reflexivity|].
  destruct ev; simpl; now rewrite IH.
Qed.

Lemma signals_gets e n :
  signals (repeat (StorageGet (Registry := Registry) e) n) = [].
Proof. induction n; simpl; auto. Qed.



(** C7: [patch] on a zero-size type applies none of the functions and
    reads no instance: it publishes exactly one update signal with the
    registry and the entity, on the state it was called in, and returns
    nothing. *)
Theorem patch_zero_size_only_signals owner e func w :
  is_eto_eligible_v = true ->
  patch owner e func w
  = Result (Done None) (invoke_all (update w) owner e w)
           [Publish Update owner e (update w)].
Proof.
  intros Heto. unfold patch. rewrite Heto.
  now rewrite (bind_done _ _ _ _ _ _ (publish_run Update owner e w)).
Qed.

(** C8: when the constructor of the component throws in [emplace], or in
    the batch insert of [insert], the pool operation ends with that very
    failure, no signal is published, and the state is the one the
    operation was called in. *)
Theorem construction_failure_leaves_pool_untouched owner e es args x w :
  (construct args = inl x ->
   emplace owner e args w = Result (Thrown x) w [StorageEmplace e]) /\
  (construct_all construct es args = inl x ->
   insert owner es args w = Result (Thrown x) w [StorageInsert es]).
Proof.
  split; intros Hc.
  - unfold emplace. apply bind_thrown.
    unfold on_storage, storage_emplace. now rewrite Hc.
  - unfold insert. apply bind_thrown.
    unfold on_storage, storage_insert. now rewrite Hc.
Qed.

(** C10: for a type that is not of zero size, what [emplace] and [patch]
    return is looked up in the storage after the signal has been
    published, hence in the state the listeners have left. *)
Theorem returned_reference_read_after_publish owner e args func v w :
  is_eto_eligible_v = false ->
  (storage_contains e (instances w) = false ->
   construct args = inr v ->
   let r := emplace owner e args w in
   final r = invoke_all (construction w) owner e
               (with_instances (instances w ++ [(e, v)]) w) /\
   calls r = [StorageEmplace e;
              Publish Construction owner e (construction w);
              StorageGet e] /\
   outcome_of r = match storage_get e (instances (final r)) with
                  | Some v' => Done (Some v')
                  | None => Violation
                  end) /\
  (storage_get e (instances w) = Some v ->
   let r := patch owner e func w in
   final r = invoke_all (update w) owner e
               (with_instances
                  (storage_set e (fold_left (fun c f => f c) func v)
                               (instances w)) w) /\
   calls r = repeat (StorageGet e) (length func)
               ++ [Publish Update owner e (update w); StorageGet e] /\
   outcome_of r = match storage_get e (instances (final r)) with
                  | Some v' => Done (Some v')
                  | None => Violation
                  end).
Proof.
  intros Heto. split.
  - intros Hn Hc r. subst r.
    rewrite (emplace_run owner e args v w Hn Hc), Heto.
    cbn [outcome_of final calls]. auto.
  - intros Hget r. subst r.
    rewrite (patch_run owner e func v w Heto Hget).
    cbn [outcome_of final calls]. auto.
Qed.

(** ** Loops over a range *)

Lemma storage_calls_app (l l' : list (event (Registry := Registry))) :
  storage_calls (l ++ l') = storage_calls l ++ storage_calls l'.
Proof.
  induction l as [|ev t IH]; [reflexivity|].
  destruct ev; simpl; now rewrite IH.
Qed.

Lemma invocations_app (l l' : list (event (Registry := Registry))) :
  invocations (l ++ l') = invocations l + invocations l'.
Proof.
  induction l as [|ev t IH]; [reflexivity|].
  destruct ev; simpl; rewrite IH; lia.
Qed.

Lemma for_each_cons (body : entity -> M unit) e es w :
  for_each (e :: es) body w
  = bind (body e) (fun _ => for_each es body) w.
Proof. reflexivity. Qed.

(** A loop of [publish] over a range always returns; it publishes one
    signal per entity of the range, in the order of the range, and calls
    nothing on the storage. *)
Lemma for_each_publish k owner es :
  forall w,
    let r := for_each es (fun e => publish k owner e) w in
    outcome_of r = Done tt /\
    final r = publish_loop k owner es w /\
    signals (calls r) = map (fun e => (k, owner, e)) es /\
    storage_calls (calls r) = [].
Proof.
  induction es as [|e t IH]; intros w r; subst r.
  - repeat split.
  - rewrite for_each_cons.
    rewrite (bind_done _ _ _ _ _ _ (publish_run k owner e w)).
    cbn [outcome_of final calls].
    destruct (IH (invoke_all (sigh k w) owner e w)) as (Ho & Hf & Hs & Hc).
    repeat split.
    + exact Ho.
    + exact Hf.
    + simpl. now rewrite Hs.
    + simpl. exact Hc.
Qed.

Lemma invoke_all_quiet ds owner e :
  Forall (quiet listener) ds ->
  forall w,
    storage_entities (instances (invoke_all ds owner e w))
    = storage_entities (instances w) /\
    destruction (invoke_all ds owner e w) = destruction w.
Proof.
  induction 1 as [|d ds Hd _ IH]; intros w.
  - split; reflexivity.
  - unfold invoke_all in *. simpl.
    destruct (IH (listener d owner e w)) as (Hi & Hs).
    destruct (Hd owner e w) as (Hi' & Hs').
    split; congruence.
Qed.

Lemma erase_calls owner e w :
  calls (erase owner e w)
  = [Publish Destruction owner e (destruction w); StorageErase e].
Proof.
  unfold erase.
  rewrite (bind_done _ _ _ _ _ _ (publish_run Destruction owner e w)).
  cbn [calls sigh]. unfold on_storage.
  now destruct (storage_erase e _).
Qed.

(** The slow path never clears the storage. *)
Lemma for_each_erase_no_clear owner es :
  forall w, ~ In StorageClear (calls (for_each es (fun e => erase owner e) w)).
Proof.
  induction es as [|e t IH]; intros w.
  - simpl. tauto.
  - rewrite for_each_cons. unfold bind.
    pose proof (erase_calls owner e w) as Hc.
    destruct (outcome_of (erase owner e w)); cbn [calls]; rewrite Hc.
    + intros Hin. apply in_app_or in Hin. destruct Hin as [Hin|Hin].
      * simpl in Hin. destruct Hin as [H|[H|[]]]; discriminate.
      * now apply IH in Hin.
    + simpl. intros [H|[H|[]]]; discriminate.
    + simpl. intros [H|[H|[]]]; discriminate.
Qed.

(** ** Batch insertion *)

Lemma construct_all_ok es args v :
  construct args = inr v ->
  construct_all construct es args = inr (map (fun e => (e, v)) es).
Proof.
  intros Hc. induction es as [|e t IH]; simpl; [reflexivity|].
  now rewrite Hc, IH.
Qed.

Lemma storage_insert_run es args v w :
  existsb (fun e => storage_contains e (instances w)) es = false ->
  distinct es = true ->
  construct args = inr v ->
  on_storage (Registry := Registry) (StorageInsert es)
             (storage_insert construct es args) w
  = Result (Done tt)
           (with_instances (instances w ++ map (fun e => (e, v)) es) w)
           [StorageInsert es].
Proof.
  intros Hn Hd Hc. unfold on_storage, storage_insert.
  now rewrite (construct_all_ok es args v Hc), Hn, Hd.
Qed.

(** C3: [insert] of a range none of whose entities is present (at the
    time it is reached, hence a range without repetition) first inserts
    the whole range with one batch call on the storage; afterwards, when
    a construction listener is registered, it publishes one construction
    signal per entity, in the order of the range, to listeners that run
    on a storage holding the whole range; when no listener is registered
    it makes no other call at all. *)
Theorem insert_batch_then_signals owner es args v w :
  existsb (fun e => storage_contains e (instances w)) es = false ->
  distinct es = true ->
  construct args = inr v ->
  let stored :=
    with_instances (instances w ++ map (fun e => (e, v)) es) w in
  let r := insert owner es args w in
  outcome_of r = Done tt /\
  (exists published,
      calls r = StorageInsert es :: published /\
      storage_calls published = [] /\
      signals published
      = match construction w with
        | [] => []
        | _ :: _ => map (fun e => (Construction, owner, e)) es
        end) /\
  final r = match construction w with
            | [] => stored
            | _ :: _ => publish_loop Construction owner es stored
            end /\
  (construction w = [] -> calls r = [StorageInsert es]).
Proof.
  intros Hn Hd Hc stored r. subst r. unfold insert.
  rewrite (bind_done _ _ _ _ _ _ (storage_insert_run es args v w Hn Hd Hc)).
  fold stored.
  rewrite (bind_done _ _ _ _ _ _ (empty_run Construction stored)).
  cbn [sigh app].
  change (construction stored) with (construction w).
  destruct (construction w) as [|d ds] eqn:Hds; cbn [negb].
  - split; [reflexivity|]. split; [|split; reflexivity].
    exists []. repeat split.
  - destruct (for_each_publish Construction owner es stored)
      as (Ho & Hf & Hs & Hcalls).
    split; [exact Ho|]. split; [|split; [exact Hf | discriminate]].
    eexists. split; [reflexivity|]. split; [exact Hcalls | exact Hs].
Qed.

(** ** Batch erasure *)

Lemma signal_all_run owner es w :
  let r := signal_all owner es w in
  outcome_of r = Done tt /\
  storage_calls (calls r) = [] /\
  signals (calls r)
  = match destruction w with
    | [] => []
    | _ :: _ => map (fun e => (Destruction, owner, e)) es
    end /\
  final r = match destruction w with
            | [] => w
            | _ :: _ => publish_loop Destruction owner es w
            end.
Proof.
  intros r. subst r. unfold signal_all.
  rewrite (bind_done _ _ _ _ _ _ (empty_run Destruction w)).
  cbn [sigh app].
  destruct (destruction w) as [|d ds]; cbn [negb].
  - repeat split.
  - destruct (for_each_publish Destruction owner es w) as (Ho & Hf & Hs & Hc).
    cbn [outcome_of final calls]. auto.
Qed.

Lemma same_distance_run es w :
  same_distance (Registry := Registry) (Exn := Exn) es w
  = Result (Done (Nat.eqb (length es) (storage_size (instances w)))) w [].
Proof. reflexivity. Qed.

Lemma erase_range_fast owner es w :
  length es = storage_size (instances w) ->
  erase_range owner es w
  = Result (Done tt)
           (with_instances [] (final (signal_all owner es w)))
           (calls (signal_all owner es w) ++ [StorageClear]).
Proof.
  intros Hlen. unfold erase_range.
  rewrite (bind_done _ _ _ _ _ _ (same_distance_run es w)).
  rewrite (proj2 (Nat.eqb_eq _ _) Hlen). cbn [app].
  unfold signal_all.
  rewrite !(bind_done _ _ _ _ _ _ (empty_run Destruction w)).
  cbn [sigh app].
  destruct (destruction w) as [|d ds]; cbn [negb].
  - reflexivity.
  - destruct (for_each_publish Destruction owner es w) as (Ho & _).
    unfold bind. rewrite Ho. reflexivity.
Qed.

Lemma erase_range_slow owner es w :
  length es <> storage_size (instances w) ->
  erase_range owner es w = for_each es (fun e => erase owner e) w.
Proof.
  intros Hlen. unfold erase_range.
  rewrite (bind_done _ _ _ _ _ _ (same_distance_run es w)).
  rewrite (proj2 (Nat.eqb_neq _ _) Hlen). cbn [app].
  now destruct (for_each es _ w).
Qed.

Lemma distinct_NoDup es : distinct es = true -> NoDup es.
Proof.
  induction es as [|e t IH]; simpl; [constructor|].
  intros H. apply andb_prop in H. destruct H as (Hn & Hd).
  constructor; [|now apply IH].
  intros Hin. apply negb_true_iff in Hn.
  assert (Hex : existsb (N.eqb e) t = true)
    by (apply existsb_exists; exists e; split;
        [assumption | apply N.eqb_refl]).
  congruence.
Qed.

(** A range without repetition, of entities of the storage, as long as
    the storage: the range names every entity of the storage. *)
Lemma full_range_permutation es (s : storage (Component := Component)) :
  length es = storage_size s ->
  distinct es = true ->
  forallb (fun e => storage_contains e s) es = true ->
  Permutation es (storage_entities s).
Proof.
  intros Hlen Hd Hall.
  apply NoDup_Permutation_bis.
  - now apply distinct_NoDup.
  - unfold storage_size in Hlen. lia.
  - intros e Hin. apply storage_contains_In.
    rewrite forallb_forall in Hall. now apply Hall.
Qed.

(** C1 (amended): when the range is as long as the storage, names only
    entities of the storage and names none twice, it is a rearrangement
    of the entities of the storage; the batch [erase] then publishes one
    destruction signal per entity of the range, in the order of the
    range, only if a destruction listener is registered, and afterwards
    empties the storage with one call of [clear] and no other call on the
    storage. *)
Theorem erase_range_full_clear owner es w :
  length es = storage_size (instances w) ->
  distinct es = true ->
  forallb (fun e => storage_contains e (instances w)) es = true ->
  let r := erase_range owner es w in
  Permutation es (storage_entities (instances w)) /\
  outcome_of r = Done tt /\
  (exists published,
      calls r = published ++ [StorageClear] /\
      storage_calls published = [] /\
      signals published
      = match destruction w with
        | [] => []
        | _ :: _ => map (fun e => (Destruction, owner, e)) es
        end) /\
  instances (final r) = [].
Proof.
  intros Hlen Hd Hall r. subst r.
  rewrite (erase_range_fast owner es w Hlen).
  cbn [outcome_of final calls with_instances instances].
  destruct (signal_all_run owner es w) as (_ & Hc & Hs & _).
  split; [now apply full_range_permutation|].
  split; [reflexivity|]. split; [|reflexivity].
  eexists. split; [reflexivity|]. split; assumption.
Qed.

(** C9: the batch [erase] clears the storage exactly when the range is as
    long as the storage.  Nothing else is looked at: every range of that
    length, whatever entities it names, has its signals published and the
    storage emptied with [clear]; every other range is erased entity by
    entity. *)
Theorem erase_range_selects_by_count owner es w :
  let r := erase_range owner es w in
  (In StorageClear (calls r) <-> length es = storage_size (instances w)) /\
  (length es = storage_size (instances w) ->
   outcome_of r = Done tt /\
   instances (final r) = [] /\
   storage_calls (calls r) = [StorageClear] /\
   signals (calls r)
   = match destruction w with
     | [] => []
     | _ :: _ => map (fun e => (Destruction, owner, e)) es
     end) /\
  (length es <> storage_size (instances w) ->
   r = for_each es (fun e => erase owner e) w).
Proof.
  intros r. subst r.
  destruct (Nat.eq_dec (length es) (storage_size (instances w))) as [Hlen|Hlen].
  - rewrite (erase_range_fast owner es w Hlen).
    cbn [outcome_of final calls with_instances instances].
    destruct (signal_all_run owner es w) as (_ & Hc & Hs & _).
    split; [|split].
    + split; [intros _; exact Hlen|].
      intros _. apply in_or_app. right. now left.
    + intros _. repeat split.
      * now rewrite storage_calls_app, Hc.
      * rewrite signals_app, Hs. simpl. now rewrite app_nil_r.
    + intros Hne. now elim Hne.
  - rewrite (erase_range_slow owner es w Hlen).
    split; [|split].
    + split; [|intros Heq; now elim Hlen].
      intros Hin. now apply for_each_erase_no_clear in Hin.
    + intros Heq. now elim Hlen.
    + reflexivity.
Qed.

(** ** Erasure of one entity *)

Lemma invoke_all_app ds ds' owner e w :
  invoke_all (ds ++ ds') owner e w
  = invoke_all ds' owner e (invoke_all ds owner e w).
Proof. unfold invoke_all. apply fold_left_app. Qed.

(** What every listener of a list preserves still holds once all of them
    have run. *)
Lemma invoke_all_keeps (P : world -> Prop) ds owner e :
  (forall d w', In d ds -> P w' -> P (listener d owner e w')) ->
  forall w, P w -> P (invoke_all ds owner e w).
Proof.
  induction ds as [|d t IH]; intros Hk w Hw; [exact Hw|].
  unfold invoke_all in *. simpl. apply IH.
  - intros d' w' Hin. apply Hk. now right.
  - apply Hk; [now left | exact Hw].
Qed.

Lemma erase_run owner e w :
  let signalled := invoke_all (destruction w) owner e w in
  erase owner e w
  = Result (match storage_erase e (instances signalled) with
            | Done _ => Done tt
            | Thrown x => Thrown x
            | Violation => Violation
            end)
           (match storage_erase (Exn := Exn) e (instances signalled) with
            | Done s' => with_instances s' signalled
            | _ => signalled
            end)
           [Publish Destruction owner e (destruction w); StorageErase e].
Proof.
  intros signalled. unfold erase.
  rewrite (bind_done _ _ _ _ _ _ (publish_run Destruction owner e w)).
  cbn [sigh]. fold signalled. unfold on_storage.
  now destruct (storage_erase e (instances signalled)).
Qed.

(** C2: [erase] of a present entity publishes the destruction signal with
    the registry and the entity first and calls the storage afterwards.
    The first listener runs on the very state of the call, and every
    listener runs on a storage that still holds the entity unless a
    listener invoked before it took the entity away itself; the entry is
    removed from the state that the listeners have left. *)
Theorem erase_signals_before_removal owner e w :
  storage_contains e (instances w) = true ->
  let r := erase owner e w in
  let signalled := invoke_all (destruction w) owner e w in
  calls r = [Publish Destruction owner e (destruction w); StorageErase e] /\
  (forall pre d post,
      destruction w = pre ++ d :: post ->
      (forall d' w',
          In d' pre ->
          storage_contains e (instances w') = true ->
          storage_contains e (instances (listener d' owner e w')) = true) ->
      let seen := invoke_all pre owner e w in
      storage_contains e (instances seen) = true /\
      signalled = invoke_all post owner e (listener d owner e seen)) /\
  (storage_contains e (instances signalled) = true ->
   distinct (storage_entities (instances signalled)) = true ->
   exists s',
     storage_erase (Exn := Exn) e (instances signalled) = Done s' /\
     outcome_of r = Done tt /\
     final r = with_instances s' signalled /\
     Permutation (e :: storage_entities s')
                 (storage_entities (instances signalled)) /\
     storage_contains e s' = false).
Proof.
  intros Hin r signalled. subst r. rewrite erase_run. fold signalled.
  cbn [outcome_of final calls].
  split; [reflexivity|]. split.
  - intros pre d post Hsplit Hkeep. cbv zeta. split.
    + apply (invoke_all_keeps
               (fun w' => storage_contains e (instances w') = true));
        assumption.
    + subst signalled. rewrite Hsplit, invoke_all_app. reflexivity.
  - intros Hstill Hd.
    destruct (storage_erase_present Exn e _ Hstill) as (s' & Hs' & Hp).
    exists s'. rewrite Hs'. repeat split; try assumption.
    apply distinct_NoDup in Hd.
    apply (Permutation_NoDup (Permutation_sym Hp)) in Hd.
    apply not_true_is_false. intros Hc.
    apply storage_contains_In in Hc. now inversion Hd.
Qed.

(** ** The whole pool erased, at once and one entity at a time *)

Lemma for_each_erase_quiet owner es :
  forall w,
    Forall (quiet listener) (destruction w) ->
    NoDup es ->
    incl es (storage_entities (instances w)) ->
    let r := for_each es (fun e => erase owner e) w in
    outcome_of r = Done tt /\
    Permutation (es ++ storage_entities (instances (final r)))
                (storage_entities (instances w)) /\
    invocations (calls r) = length es * length (destruction w) /\
    storage_calls (calls r) = map StorageErase es.
Proof.
  induction es as [|e t IH]; intros w Hq Hnd Hincl r; subst r.
  - repeat split. simpl. apply Permutation_refl.
  - rewrite for_each_cons.
    pose proof (erase_run owner e w) as Hrun. cbv zeta in Hrun.
    set (signalled := invoke_all (destruction w) owner e w) in *.
    destruct (invoke_all_quiet (destruction w) owner e Hq w) as (Hi & Hs).
    fold signalled in Hi, Hs.
    assert (Hin : storage_contains e (instances signalled) = true).
    { apply storage_contains_In. rewrite Hi. apply Hincl. now left. }
    destruct (storage_erase_present Exn e _ Hin) as (s' & Hs' & Hp).
    rewrite Hs' in Hrun. rewrite Hi in Hp.
    rewrite (bind_done _ _ _ _ _ _ Hrun).
    set (w' := with_instances s' signalled) in *.
    assert (Hdw : destruction w' = destruction w) by exact Hs.
    inversion Hnd as [|? ? Hnot Hnd']; subst.
    destruct (IH w') as (Ho & Hperm & Hinv & Hsc).
    { now rewrite Hdw. }
    { exact Hnd'. }
    { intros x Hx.
      assert (Hx' : In x (e :: storage_entities s')).
      { apply (Permutation_in _ (Permutation_sym Hp)), Hincl. now right. }
      destruct Hx' as [->|Hx']; [contradiction | exact Hx']. }
    cbn [outcome_of final calls].
    split; [exact Ho|]. split; [|split].
    + simpl. rewrite <- Hp. apply perm_skip. exact Hperm.
    + simpl. rewrite Hinv, Hdw. lia.
    + simpl. now rewrite Hsc.
Qed.

Lemma invoke_all_harmless range ds owner e :
  Forall (harmless listener range) ds ->
  forall w,
    destruction (invoke_all ds owner e w) = destruction w /\
    (forall x,
        In x range ->
        storage_contains x (instances w) = true ->
        storage_contains x (instances (invoke_all ds owner e w)) = true).
Proof.
  induction 1 as [|d ds Hd _ IH]; intros w.
  - split; [reflexivity | auto].
  - unfold invoke_all in *. simpl.
    destruct (IH (listener d owner e w)) as (Hs & Hk).
    destruct (Hd owner e w) as (Hs' & Hk').
    split; [congruence|].
    intros x Hx Hp. apply Hk; [exact Hx|]. now apply Hk'.
Qed.

(** With listeners that leave the destruction hub alone, a loop of
    destruction signals invokes every registered listener once per
    entity. *)
Lemma for_each_publish_harmless range owner es :
  forall w,
    Forall (harmless listener range) (destruction w) ->
    invocations (calls (for_each es (fun e => publish Destruction owner e) w))
    = length es * length (destruction w).
Proof.
  induction es as [|e t IH]; intros w Hq.
  - reflexivity.
  - rewrite for_each_cons.
    rewrite (bind_done _ _ _ _ _ _ (publish_run Destruction owner e w)).
    cbn [outcome_of final calls sigh].
    destruct (invoke_all_harmless range (destruction w) owner e Hq w)
      as (Hs & _).
    simpl. rewrite IH by now rewrite Hs. now rewrite Hs.
Qed.

Lemma signal_all_invocations_harmless range owner es w :
  Forall (harmless listener range) (destruction w) ->
  invocations (calls (signal_all owner es w))
  = length es * length (destruction w).
Proof.
  intros Hq. unfold signal_all.
  rewrite (bind_done _ _ _ _ _ _ (empty_run Destruction w)).
  cbn [sigh calls app].
  destruct (destruction w) as [|d ds] eqn:Hds; cbn [negb].
  - simpl. lia.
  - rewrite (for_each_publish_harmless range owner es w)
      by now rewrite Hds.
    now rewrite Hds.
Qed.

(** Entity by entity, with listeners that leave the destruction hub alone
    and take no entity of the range away: every single [erase] returns and
    invokes the listeners registered at the start. *)
Lemma for_each_erase_harmless range owner es :
  forall w,
    Forall (harmless listener range) (destruction w) ->
    incl es range ->
    NoDup es ->
    (forall x, In x es -> storage_contains x (instances w) = true) ->
    let r := for_each es (fun e => erase owner e) w in
    outcome_of r = Done tt /\
    invocations (calls r) = length es * length (destruction w) /\
    storage_calls (calls r) = map StorageErase es.
Proof.
  induction es as [|e t IH]; intros w Hq Hsub Hnd Hall r; subst r.
  - repeat split.
  - rewrite for_each_cons.
    pose proof (erase_run owner e w) as Hrun. cbv zeta in Hrun.
    set (signalled := invoke_all (destruction w) owner e w) in *.
    destruct (invoke_all_harmless range (destruction w) owner e Hq w)
      as (Hs & Hk).
    fold signalled in Hs, Hk.
    assert (Hin : storage_contains e (instances signalled) = true).
    { apply Hk; [apply Hsub; now left | apply Hall; now left]. }
    destruct (storage_erase_present Exn e _ Hin) as (s' & Hs' & Hp).
    rewrite Hs' in Hrun.
    rewrite (bind_done _ _ _ _ _ _ Hrun).
    set (w' := with_instances s' signalled) in *.
    assert (Hdw : destruction w' = destruction w) by exact Hs.
    inversion Hnd as [|? ? Hnot Hnd']; subst.
    destruct (IH w') as (Ho & Hinv & Hsc).
    { now rewrite Hdw. }
    { intros x Hx. apply Hsub. now right. }
    { exact Hnd'. }
    { intros x Hx. apply storage_contains_In.
      assert (Hx' : In x (e :: storage_entities s')).
      { apply (Permutation_in _ (Permutation_sym Hp)).
        apply storage_contains_In, Hk;
          [apply Hsub; now right | apply Hall; now right]. }
      destruct Hx' as [->|Hx']; [contradiction | exact Hx']. }
    cbn [outcome_of final calls].
    split; [exact Ho|]. split.
    + simpl. rewrite Hinv, Hdw. lia.
    + simpl. now rewrite Hsc.
Qed.


End PoolFacts.

(** * The statements at work on the pool of natural numbers *)

Section Runs.

Import Sample.

Local Open Scope N_scope.

Local Abbreviation tag_emplace := (emplace true tag_construct tag_listener).
Local Abbreviation tag_patch := (patch (Exn := nat) true tag_listener).
Local Abbreviation re_erase := (erase (Exn := nat) Reentrant.listener).
Local Abbreviation re_erase_range :=
  (erase_range (Exn := nat) Reentrant.listener).
Local Abbreviation emplace := (emplace false construct listener).
Local Abbreviation insert := (insert construct listener).
Local Abbreviation erase := (erase (Exn := nat) listener).
Local Abbreviation erase_range := (erase_range (Exn := nat) listener).
Local Abbreviation patch := (patch (Exn := nat) false listener).

Lemma probe_quiet : Forall (quiet listener) [probe].
Proof. constructor; [|constructor]. intros owner e w. now split. Qed.

(** On a pool that holds [1] and [2] and iterates them in that order, the
    range [2, 1] is a full range and its destruction signals come as [2]
    then [1]: not in the order in which the pool iterates.  The signals
    follow the range: for the range [1, 2] they come as [1] then [2]. *)
Lemma erase_range_iteration_order_counterexample :
  length [2; 1] = storage_size (instances probed) /\
  distinct [2; 1] = true /\
  forallb (fun e => storage_contains e (instances probed)) [2; 1] = true /\
  destruction probed = [probe] /\
  storage_entities (instances probed) = [1; 2] /\
  signals (calls (erase_range 7%nat [2; 1] probed))
  = [(Destruction, 7%nat, 2); (Destruction, 7%nat, 1)] /\
  signals (calls (erase_range 7%nat [2; 1] probed))
  <> map (fun e => (Destruction, 7%nat, e))
         (storage_entities (instances probed)) /\
  signals (calls (erase_range 7%nat [1; 2] probed))
  = [(Destruction, 7%nat, 1); (Destruction, 7%nat, 2)].
Proof.
  repeat split. vm_compute. discriminate.
Qed.

Lemma erase_range_full_clear_witness :
  length [2; 1] = storage_size (instances probed) /\
  distinct [2; 1] = true /\
  forallb (fun e => storage_contains e (instances probed)) [2; 1] = true /\
  Permutation [2; 1] (storage_entities (instances probed)) /\
  instances (final (erase_range 7%nat [2; 1] probed)) = [].
Proof.
  destruct (erase_range_full_clear (Exn := nat) listener 7%nat [2; 1] probed
              eq_refl eq_refl eq_refl) as (Hperm & _ & _ & Hempty).
  split; [reflexivity|]. split; [reflexivity|]. split; [reflexivity|].
  split; [exact Hperm | exact Hempty].
Defined.

Lemma erase_signals_before_removal_witness :
  storage_contains 1 (instances probed) = true /\
  calls (erase 7%nat 1 probed)
  = [Publish Destruction 7%nat 1 [probe]; StorageErase 1] /\
  user (final (erase 7%nat 1 probed)) = [(1, true)] /\
  storage_contains 1 (instances (final (erase 7%nat 1 probed))) = false.
Proof.
  destruct (erase_signals_before_removal (Exn := nat) listener 7%nat 1 probed
              eq_refl) as (Hcalls & Hseen & Hgone).
  destruct (Hseen [] probe [] eq_refl) as (Hpresent & Hsignalled).
  { intros d' w' []. }
  destruct (Hgone eq_refl eq_refl) as (s' & _ & _ & Hfinal & _ & Habsent).
  split; [reflexivity|]. split; [exact Hcalls|]. split.
  - reflexivity.
  - fold erase in Hfinal. rewrite Hfinal. exact Habsent.
Defined.

Lemma insert_batch_then_signals_witness :
  existsb (fun e => storage_contains e (instances probed)) [3; 4] = false /\
  distinct [3; 4] = true /\
  construct 5 = inr 5%nat /\
  outcome_of (insert 7%nat [3; 4] 5%nat probed) = Done tt /\
  final (insert 7%nat [3; 4] 5%nat probed)
  = publish_loop listener Construction 7%nat [3; 4]
      (with_instances (instances probed ++ [(3, 5%nat); (4, 5%nat)]) probed) /\
  (construction two = [] ->
   calls (insert 7%nat [3; 4] 5%nat two) = [StorageInsert [3; 4]]).
Proof.
  destruct (insert_batch_then_signals construct listener 7%nat [3; 4] 5%nat
              5%nat probed eq_refl eq_refl eq_refl) as (Hdone & _ & Hfinal & _).
  destruct (insert_batch_then_signals construct listener 7%nat [3; 4] 5%nat
              5%nat two eq_refl eq_refl eq_refl) as (_ & _ & _ & Hnone).
  split; [reflexivity|]. split; [reflexivity|]. split; [reflexivity|].
  split; [exact Hdone|]. split; [exact Hfinal | exact Hnone].
Defined.




Lemma spawner_harmless :
  Forall (harmless Reentrant.listener [2; 1])
         (destruction Reentrant.spawning).
Proof.
  constructor; [|constructor]. intros owner e w. simpl.
  destruct (storage_contains 99 (instances w)) eqn:H99; [now split|].
  split; [reflexivity|]. intros x _ Hx. cbn [with_instances instances].
  unfold storage_contains, storage_entities in Hx |- *.
  rewrite map_app, existsb_app.
  apply orb_true_intro. left. exact Hx.
Qed.


Lemma patch_zero_size_only_signals_witness :
  tag_patch 7%nat 1 [fun _ => tt] tags
  = Result (Done None)
           (World [(1, tt); (2, tt)] [probe] [probe] [probe] [(1, true)])
           [Publish Update 7%nat 1 [probe]].
Proof.
  exact (patch_zero_size_only_signals (Exn := nat) true tag_listener 7%nat 1
           [fun _ => tt] tags eq_refl).
Defined.

Lemma construction_failure_leaves_pool_untouched_witness :
  construct 0 = inl 22%nat /\
  construct_all construct [3; 4] 0%nat = inl 22%nat /\
  emplace 7%nat 3 0%nat probed
  = Result (Thrown 22%nat) probed [StorageEmplace 3] /\
  insert 7%nat [3; 4] 0%nat probed
  = Result (Thrown 22%nat) probed [StorageInsert [3; 4]].
Proof.
  destruct (construction_failure_leaves_pool_untouched false construct
              listener 7%nat 3 [3; 4] 0%nat 22%nat probed) as (Hone & Hmany).
  split; [reflexivity|]. split; [reflexivity|].
  split; [exact (Hone eq_refl) | exact (Hmany eq_refl)].
Defined.

(** A range of the right length is a full clear even when it names
    entities that the pool does not hold; a range of another length is
    erased entity by entity. *)
Lemma erase_range_selects_by_count_witness :
  length [7; 8] = storage_size (instances probed) /\
  instances (final (erase_range 7%nat [7; 8] probed)) = [] /\
  signals (calls (erase_range 7%nat [7; 8] probed))
  = [(Destruction, 7%nat, 7); (Destruction, 7%nat, 8)] /\
  length [2] <> storage_size (instances probed) /\
  erase_range 7%nat [2] probed = for_each [2] (fun e => erase 7%nat e) probed /\
  ~ In StorageClear (calls (erase_range 7%nat [2] probed)).
Proof.
  destruct (erase_range_selects_by_count (Exn := nat) listener 7%nat [7; 8]
              probed) as (_ & Hfast & _).
  destruct (Hfast eq_refl) as (_ & Hempty & _ & Hsignals).
  assert (Hne : length [2] <> storage_size (instances probed))
    by (intros H; discriminate H).
  destruct (erase_range_selects_by_count (Exn := nat) listener 7%nat [2]
              probed) as (Hiff & _ & Hslow).
  split; [reflexivity|]. split; [exact Hempty|]. split; [exact Hsignals|].
  split; [exact Hne|]. split; [exact (Hslow Hne)|].
  intros Hin. apply Hne. exact (proj1 Hiff Hin).
Defined.

(** The listener adds [100] in place while the signal is published: what
    [emplace] and [patch] return carries the addition. *)
Lemma returned_reference_read_after_publish_witness :
  storage_contains 3 (instances bumped) = false /\
  construct 5 = inr 5%nat /\
  storage_get 2 (instances bumped) = Some 20%nat /\
  outcome_of (emplace 7%nat 3 5%nat bumped) = Done (Some 105%nat) /\
  outcome_of (patch 7%nat 2 [fun v => v + 1; fun v => v * 2]%nat bumped)
  = Done (Some 142%nat).
Proof.
  destruct (returned_reference_read_after_publish false construct listener
              7%nat 3 5%nat [] 5%nat bumped eq_refl) as (Hemplace & _).
  destruct (Hemplace eq_refl eq_refl) as (_ & _ & Hnew).
  destruct (returned_reference_read_after_publish false construct listener
              7%nat 2 5%nat [fun v => v + 1; fun v => v * 2]%nat 20%nat bumped
              eq_refl) as (_ & Hpatch).
  destruct (Hpatch eq_refl) as (_ & _ & Hold).
  split; [reflexivity|]. split; [reflexivity|]. split; [reflexivity|].
  split; [exact Hnew | exact Hold].
Defined.

End Runs.

(** * Further properties of the pool *)

Section StorageMore.

Context {Component : Type}.
Implicit Types (s : @storage Component) (e : entity) (v : Component).

Lemma storage_entities_set e v s :
  storage_entities (storage_set e v s) = storage_entities s.
Proof.
  induction s as [|[e' v0] t IH]; simpl; [reflexivity|].
  destruct (N.eqb e e'); simpl; [reflexivity|]. now rewrite IH.
Qed.

Lemma storage_contains_get_none e s :
  storage_get e s = None <-> storage_contains e s = false.
Proof.
  unfold storage_contains.
  induction s as [|[e' v'] t IH]; simpl; [tauto|].
  destruct (N.eqb e e'); simpl; [split; discriminate | exact IH].
Qed.

(** Erasing an entity that the storage does not hold breaks the
    precondition of the storage. *)
Lemma storage_erase_absent (Exn : Type) e s :
  storage_contains e s = false ->
  storage_erase (Exn := Exn) e s = Violation.
Proof.
  unfold storage_contains.
  induction s as [|[e' v'] t IH]; simpl; [reflexivity|].
  destruct (N.eqb e e'); simpl; [discriminate|].
  intros H. now rewrite (IH H).
Qed.

(** Erasing the entity that was added last gives back the storage as it
    was before the addition. *)
Lemma storage_erase_last (Exn : Type) e v s :
  storage_contains e s = false ->
  storage_erase (Exn := Exn) e (s ++ [(e, v)]) = Done s.
Proof.
  unfold storage_contains.
  induction s as [|[e' v'] t IH]; simpl.
  - intros _. now rewrite N.eqb_refl.
  - destruct (N.eqb e e'); simpl; [discriminate|].
    intros H. now rewrite (IH H).
Qed.

Lemma storage_contains_get e s :
  storage_contains e s = true -> exists v, storage_get e s = Some v.
Proof.
  intros H. destruct (storage_get e s) as [v|] eqn:E; [now exists v|].
  apply storage_contains_get_none in E. congruence.
Qed.

(** Erasing the entity in the last slot gives back the entities before
    it, in their order. *)
Lemma storage_erase_last_entity (Exn : Type) e (l : list entity) :
  ~ In e l ->
  forall s,
    storage_entities s = l ++ [e] ->
    exists s', storage_erase (Exn := Exn) e s = Done s' /\
               storage_entities s' = l.
Proof.
  intros Hout. induction l as [|a t IH]; intros s Hs.
  - destruct s as [|[e' v'] [|p s0]]; try discriminate.
    simpl in Hs. injection Hs as ->. simpl. rewrite N.eqb_refl.
    now exists [].
  - destruct s as [|[e' v'] s0]; [discriminate|].
    simpl in Hs. injection Hs as -> Hs0.
    destruct (IH (fun H => Hout (or_intror H)) s0 Hs0) as (s' & Hs' & Hl).
    simpl. destruct (N.eqb e a) eqn:E.
    + apply N.eqb_eq in E. subst a. elim Hout. now left.
    + rewrite Hs'. exists ((a, v') :: s'). split; [reflexivity|].
      simpl. now rewrite Hl.
Qed.

(** Writing the instance of an entity leaves the instances of the others
    as they are. *)
Lemma storage_get_set_other e e' v s :
  e' <> e -> storage_get e' (storage_set e v s) = storage_get e' s.
Proof.
  intros Hne. induction s as [|[a va] t IH]; simpl; [reflexivity|].
  destruct (N.eqb e a) eqn:E; simpl.
  - apply N.eqb_eq in E. subst a.
    now rewrite (proj2 (N.eqb_neq e' e) Hne).
  - destruct (N.eqb e' a); [reflexivity | exact IH].
Qed.

Lemma storage_contains_app e s s' :
  storage_contains e (s ++ s') = storage_contains e s || storage_contains e s'.
Proof.
  unfold storage_contains, storage_entities.
  now rewrite map_app, existsb_app.
Qed.

Lemma storage_get_app e s s' :
  storage_get e (s ++ s')
  = match storage_get e s with
    | Some v => Some v
    | None => storage_get e s'
    end.
Proof.
  induction s as [|[a va] t IH]; simpl; [reflexivity|].
  destruct (N.eqb e a); [reflexivity | exact IH].
Qed.

Lemma storage_get_fresh e v (es : list entity) :
  storage_get e (map (fun x => (x, v)) es)
  = if existsb (N.eqb e) es then Some v else None.
Proof.
  induction es as [|a t IH]; simpl; [reflexivity|].
  destruct (N.eqb e a); [reflexivity | exact IH].
Qed.

End StorageMore.

Section PoolMore.

Context {Registry Component Args Exn User : Type}.
Variable is_eto_eligible_v : bool.
Variable construct : Args -> Exn + Component.
Variable listener :
  delegate -> Registry -> entity -> @world Component User -> @world Component User.

Local Abbreviation world := (@world Component User).
Local Abbreviation emplace := (emplace is_eto_eligible_v construct listener).
Local Abbreviation insert := (insert construct listener).
Local Abbreviation erase := (erase (Exn := Exn) listener).
Local Abbreviation erase_range := (erase_range (Exn := Exn) listener).
Local Abbreviation patch := (patch (Exn := Exn) is_eto_eligible_v listener).
Local Abbreviation invoke_all := (invoke_all listener).
Local Abbreviation publish_loop := (publish_loop listener).
Local Abbreviation for_each :=
  (for_each (Registry := Registry) (Component := Component) (Exn := Exn)
            (User := User)).
Local Abbreviation M :=
  (M (Registry := Registry) (Component := Component) (Exn := Exn)
     (User := User)).
Local Abbreviation publish := (publish (Exn := Exn) listener).
Local Abbreviation signal_all := (signal_all (Exn := Exn) listener).
Local Abbreviation emplace_each :=
  (emplace_each is_eto_eligible_v construct listener).
Local Abbreviation erase_trace := (erase_trace (Registry := Registry)).

Implicit Types (w : world) (e : entity) (es : list entity) (owner : Registry).

Lemma bind_violation {A B} (m : M A) (k : A -> M B) w w' l :
  m w = Result (Exn := Exn) (Registry := Registry) Violation w' l ->
  bind m k w = Result Violation w' l.
Proof. intros H. unfold bind. now rewrite H. Qed.

(** ** Edges of the batch erasure *)

(** X3: An empty range on an empty pool takes the fast path: the storage is
    cleared once and nothing is published; on a pool that holds entities it
    takes the slow path, which has nothing to do. *)
Theorem erase_range_of_nothing owner w :
  erase_range owner [] w
  = match instances w with
    | [] => Result (Done tt) w [StorageClear]
    | _ :: _ => Result (Done tt) w []
    end.
Proof.
  destruct w as [[|p t] cs [|d ds] us u]; reflexivity.
Qed.

(** X4: A range as long as the storage that leaves out an entity of the pool:
    the entity is removed with all the others, and no destruction signal
    is published for it. *)
Theorem erase_range_drops_unnamed_silently owner es e w :
  length es = storage_size (instances w) ->
  storage_contains e (instances w) = true ->
  ~ In e es ->
  let r := erase_range owner es w in
  outcome_of r = Done tt /\
  ~ In (Destruction, owner, e) (signals (calls r)) /\
  storage_contains e (instances (final r)) = false.
Proof.
  intros Hlen _ Hout r. subst r.
  rewrite (erase_range_fast listener owner es w Hlen).
  cbn [outcome_of final calls with_instances instances].
  destruct (signal_all_run (Exn := Exn) listener owner es w)
    as (_ & _ & Hs & _).
  split; [reflexivity|]. split; [|reflexivity].
  rewrite signals_app, Hs. simpl. rewrite app_nil_r.
  destruct (destruction w); [tauto|].
  intros Hin. apply in_map_iff in Hin.
  destruct Hin as (x & Heq & Hx). injection Heq as ->. contradiction.
Qed.

(** ** Broken preconditions *)

(** X6: [erase] publishes before it looks at the storage: for an entity that
    is not in the storage once the listeners have run, the destruction
    listeners have all been invoked when the storage rejects the call, and
    the storage is as the listeners left it. *)
Theorem erase_absent_signals_first owner e w :
  let signalled := invoke_all (destruction w) owner e w in
  storage_contains e (instances signalled) = false ->
  erase owner e w
  = Result Violation signalled
           [Publish Destruction owner e (destruction w); StorageErase e].
Proof.
  intros signalled Habs.
  pose proof (erase_run (Exn := Exn) listener owner e w) as Hrun.
  cbv zeta in Hrun. fold signalled in Hrun.
  now rewrite (storage_erase_absent Exn e _ Habs) in Hrun.
Qed.

(** X7: [emplace] and [insert] call the storage before they publish: when
    the storage rejects the call (the entity is already there, or the
    range names an entity that is there or names one twice), the operation
    ends there, and the call on the storage is the only call it has made:
    no construction signal is published and no listener is invoked. *)
Theorem rejected_insertion_signals_nothing owner e es args v w :
  construct args = inr v ->
  (storage_contains e (instances w) = true ->
   let r := emplace owner e args w in
   outcome_of r = Violation /\
   calls r = [StorageEmplace e] /\
   invocations (calls r) = 0) /\
  (existsb (fun x => storage_contains x (instances w)) es
   || negb (distinct es) = true ->
   let r := insert owner es args w in
   outcome_of r = Violation /\
   calls r = [StorageInsert es] /\
   invocations (calls r) = 0).
Proof.
  intros Hc. split; intros Hbad r; subst r.
  - unfold emplace, bind, on_storage, storage_emplace.
    rewrite Hc, Hbad. repeat split.
  - unfold insert, bind, on_storage, storage_insert.
    rewrite (construct_all_ok construct es args v Hc), Hbad. repeat split.
Qed.

(** X8: [patch] of a type that is not of zero size looks the entity up before
    it applies a function: on an entity that is not in the storage, with at
    least one function, it stops there, with no function applied, no
    update signal and no change.  With no function at all the update
    signal is published first, and the lookup for the result fails
    afterwards. *)
Theorem patch_absent_entity owner e f func w :
  is_eto_eligible_v = false ->
  storage_get e (instances w) = None ->
  patch owner e (f :: func) w = Result Violation w [StorageGet e] /\
  (let signalled := invoke_all (update w) owner e w in
   storage_get e (instances signalled) = None ->
   patch owner e [] w
   = Result Violation signalled
            [Publish Update owner e (update w); StorageGet e]).
Proof.
  intros Heto Habs. split.
  - unfold patch. rewrite Heto.
    unfold bind, apply_funcs, apply_func, bind, get. now rewrite Habs.
  - intros signalled Hstill.
    unfold patch. rewrite Heto.
    unfold bind, apply_funcs, ret, publish, get.
    cbn [outcome_of final calls sigh app].
    fold signalled. now rewrite Hstill.
Qed.

(** ** The slow path of the batch erasure *)

Lemma for_each_app (body : entity -> M unit) es es' w :
  for_each (es ++ es') body w
  = bind (for_each es body) (fun _ => for_each es' body) w.
Proof.
  revert w. induction es as [|e t IH]; intros w.
  - simpl. unfold bind, ret. cbn [outcome_of final calls app].
    now destruct (for_each es' body w).
  - simpl. unfold bind in *.
    destruct (body e w) as [[a|x|] w1 l]; cbn [outcome_of final calls];
      [|reflexivity|reflexivity].
    rewrite IH.
    destruct (for_each t body w1) as [[a'|x|] w2 l'];
      cbn [outcome_of final calls]; try reflexivity.
    now rewrite app_assoc.
Qed.

Lemma erase_trace_app owner ds es es' :
  erase_trace owner ds (es ++ es')
  = erase_trace owner ds es ++ erase_trace owner ds es'.
Proof. apply flat_map_app. Qed.

(** Entity by entity, with quiet listeners: every entity of a range
    without repetition that the pool holds is signalled and then erased,
    in the order of the range. *)
Lemma for_each_erase_trace owner es :
  forall w,
    Forall (quiet listener) (destruction w) ->
    NoDup es ->
    incl es (storage_entities (instances w)) ->
    let r := for_each es (fun e => erase owner e) w in
    outcome_of r = Done tt /\
    calls r = erase_trace owner (destruction w) es /\
    destruction (final r) = destruction w /\
    Permutation (es ++ storage_entities (instances (final r)))
                (storage_entities (instances w)).
Proof.
  induction es as [|e t IH]; intros w Hq Hnd Hincl r; subst r.
  - repeat split. simpl. apply Permutation_refl.
  - rewrite for_each_cons.
    pose proof (erase_run (Exn := Exn) listener owner e w) as Hrun.
    cbv zeta in Hrun.
    set (signalled := invoke_all (destruction w) owner e w) in *.
    destruct (invoke_all_quiet listener (destruction w) owner e Hq w)
      as (Hi & Hs).
    fold signalled in Hi, Hs.
    assert (Hin : storage_contains e (instances signalled) = true).
    { apply storage_contains_In. rewrite Hi. apply Hincl. now left. }
    destruct (storage_erase_present Exn e _ Hin) as (s' & Hs' & Hp).
    rewrite Hs' in Hrun. rewrite Hi in Hp.
    rewrite (bind_done _ _ _ _ _ _ Hrun).
    set (w' := with_instances s' signalled) in *.
    assert (Hdw : destruction w' = destruction w) by exact Hs.
    inversion Hnd as [|? ? Hnot Hnd']; subst.
    destruct (IH w') as (Ho & Hcalls & Hd & Hperm).
    { now rewrite Hdw. }
    { exact Hnd'. }
    { intros x Hx.
      assert (Hx' : In x (e :: storage_entities s')).
      { apply (Permutation_in _ (Permutation_sym Hp)), Hincl. now right. }
      destruct Hx' as [->|Hx']; [contradiction | exact Hx']. }
    cbn [outcome_of final calls].
    split; [exact Ho|]. split; [|split].
    + rewrite Hcalls, Hdw. reflexivity.
    + now rewrite Hd.
    + simpl. rewrite <- Hp. apply perm_skip. exact Hperm.
Qed.

Lemma NoDup_app_apart (l l' : list entity) :
  NoDup (l ++ l') -> forall x, In x l -> ~ In x l'.
Proof.
  induction l as [|a t IH]; intros Hnd x Hin; [contradiction|].
  simpl in Hnd. inversion Hnd as [|? ? Hnot Hnd']; subst.
  destruct Hin as [->|Hin].
  - intros Hx. apply Hnot. apply in_or_app. now right.
  - now apply IH.
Qed.

Lemma present_incl es (s : storage (Component := Component)) :
  forallb (fun e => storage_contains e s) es = true ->
  incl es (storage_entities s).
Proof.
  intros Hall e Hin. apply storage_contains_In.
  rewrite forallb_forall in Hall. now apply Hall.
Qed.

(** X1: A range that is not as long as the storage, without repetition, of
    entities of the pool, with quiet destruction listeners: the entities
    are erased one by one in the order of the range, the signal of each
    right before its removal; the entities of the range are gone and all
    the others are kept. *)
Theorem erase_range_partial owner es w :
  Forall (quiet listener) (destruction w) ->
  length es <> storage_size (instances w) ->
  distinct es = true ->
  forallb (fun e => storage_contains e (instances w)) es = true ->
  let r := erase_range owner es w in
  outcome_of r = Done tt /\
  calls r = erase_trace owner (destruction w) es /\
  Permutation (es ++ storage_entities (instances (final r)))
              (storage_entities (instances w)) /\
  (distinct (storage_entities (instances w)) = true ->
   forall e, In e es -> storage_contains e (instances (final r)) = false).
Proof.
  intros Hq Hlen Hd Hall r. subst r.
  rewrite (erase_range_slow listener owner es w Hlen).
  destruct (for_each_erase_trace owner es w Hq (distinct_NoDup es Hd)
              (present_incl es _ Hall)) as (Ho & Hc & _ & Hp).
  split; [exact Ho|]. split; [exact Hc|]. split; [exact Hp|].
  intros Hpool e Hin.
  apply distinct_NoDup in Hpool.
  apply (Permutation_NoDup (Permutation_sym Hp)) in Hpool.
  apply not_true_is_false. intros Hc'. apply storage_contains_In in Hc'.
  exact (NoDup_app_apart _ _ Hpool e Hin Hc').
Qed.

(** X2: No rollback on the slow path: when the range names, after entities of
    the pool, an entity that the pool does not hold, the entities before
    it have been signalled and erased, the destruction signal of the
    absent entity has been published as well, and the call ends there on
    the broken precondition; what follows in the range is not touched. *)
Theorem erase_range_stops_at_absent owner pre e post w :
  Forall (quiet listener) (destruction w) ->
  length (pre ++ e :: post) <> storage_size (instances w) ->
  distinct pre = true ->
  forallb (fun x => storage_contains x (instances w)) pre = true ->
  storage_contains e (instances w) = false ->
  let r := erase_range owner (pre ++ e :: post) w in
  outcome_of r = Violation /\
  calls r = erase_trace owner (destruction w) (pre ++ [e]) /\
  Permutation (pre ++ storage_entities (instances (final r)))
              (storage_entities (instances w)).
Proof.
  intros Hq Hlen Hd Hall Habs r. subst r.
  rewrite (erase_range_slow listener owner (pre ++ e :: post) w Hlen).
  rewrite for_each_app.
  destruct (for_each_erase_trace owner pre w Hq (distinct_NoDup pre Hd)
              (present_incl pre _ Hall)) as (Ho & Hc & Hdw & Hp).
  set (w1 := final (for_each pre (fun e0 => erase owner e0) w)) in *.
  assert (Hpre : for_each pre (fun e0 => erase owner e0) w
                 = Result (Done tt) w1 (erase_trace owner (destruction w) pre)).
  { subst w1. destruct (for_each pre _ w) as [o f l].
    cbn [outcome_of final calls] in *. now subst. }
  rewrite (bind_done _ _ _ _ _ _ Hpre).
  assert (Hq1 : Forall (quiet listener) (destruction w1)) by now rewrite Hdw.
  destruct (invoke_all_quiet listener (destruction w1) owner e Hq1 w1)
    as (Hi & _).
  assert (Hgone : storage_contains e
                    (instances (invoke_all (destruction w1) owner e w1))
                  = false).
  { apply not_true_is_false. intros Hin.
    apply storage_contains_In in Hin. rewrite Hi in Hin.
    assert (Hw : In e (storage_entities (instances w))).
    { apply (Permutation_in _ Hp). apply in_or_app. now right. }
    apply storage_contains_In in Hw. congruence. }
  pose proof (erase_run (Exn := Exn) listener owner e w1) as Hrun.
  cbv zeta in Hrun.
  rewrite (storage_erase_absent Exn e _ Hgone) in Hrun.
  rewrite for_each_cons, (bind_violation _ _ _ _ _ Hrun).
  cbn [outcome_of final calls].
  split; [reflexivity|]. split.
  - rewrite erase_trace_app, Hdw. simpl. reflexivity.
  - rewrite Hi. exact Hp.
Qed.

(** ** Operations in sequence *)

Lemma quiet_entities_after ds owner e w :
  Forall (quiet listener) ds ->
  storage_entities (instances (invoke_all ds owner e w))
  = storage_entities (instances w).
Proof. intros Hq. apply (invoke_all_quiet listener ds owner e Hq w). Qed.

Lemma quiet_destruction_after ds owner e w :
  Forall (quiet listener) ds ->
  destruction (invoke_all ds owner e w) = destruction w.
Proof. intros Hq. apply (invoke_all_quiet listener ds owner e Hq w). Qed.

(** X10: [emplace] and then [erase] of the same entity, with quiet listeners on
    construction and on destruction: the pool holds the entities it held
    before, in the same order, and the construction signal and the
    destruction signal of the entity have been published once each. *)
Theorem emplace_then_erase owner e args v w :
  storage_contains e (instances w) = false ->
  construct args = inr v ->
  Forall (quiet listener) (construction w) ->
  Forall (quiet listener) (destruction w) ->
  let r := bind (emplace owner e args) (fun _ => erase owner e) w in
  outcome_of r = Done tt /\
  storage_entities (instances (final r)) = storage_entities (instances w) /\
  signals (calls r) = [(Construction, owner, e); (Destruction, owner, e)].
Proof.
  intros Hn Hc Hqc Hqd r. subst r.
  pose proof (emplace_run is_eto_eligible_v construct listener owner e args v
                w Hn Hc) as Hrun. cbv zeta in Hrun.
  set (stored := with_instances (instances w ++ [(e, v)]) w) in *.
  set (after := invoke_all (construction w) owner e stored) in *.
  assert (Hents : storage_entities (instances after)
                  = storage_entities (instances w) ++ [e]).
  { subst after. rewrite (quiet_entities_after _ owner e stored Hqc).
    subst stored. cbn [with_instances instances].
    unfold storage_entities. now rewrite map_app. }
  assert (Hdes : destruction after = destruction w).
  { subst after. now rewrite (quiet_destruction_after _ owner e stored Hqc). }
  assert (Hin : storage_contains e (instances after) = true).
  { apply storage_contains_In. rewrite Hents. apply in_or_app.
    right. now left. }
  destruct (storage_contains_get e _ Hin) as (v' & Hget).
  rewrite Hget in Hrun.
  assert (Hdone : exists res, emplace owner e args w
                    = Result (Done res) after
                        (StorageEmplace e
                           :: Publish Construction owner e (construction w)
                           :: (if is_eto_eligible_v then []
                               else [StorageGet e]))).
  { rewrite Hrun. destruct is_eto_eligible_v; eexists; reflexivity. }
  destruct Hdone as (res & Hemp).
  rewrite (bind_done _ _ _ _ _ _ Hemp).
  pose proof (erase_run (Exn := Exn) listener owner e after) as Her.
  cbv zeta in Her. rewrite Hdes in Her.
  set (signalled := invoke_all (destruction w) owner e after) in *.
  assert (Hents' : storage_entities (instances signalled)
                   = storage_entities (instances w) ++ [e]).
  { subst signalled. now rewrite (quiet_entities_after _ owner e after Hqd). }
  assert (Hout : ~ In e (storage_entities (instances w))).
  { intros H. apply storage_contains_In in H. congruence. }
  destruct (storage_erase_last_entity Exn e _ Hout _ Hents')
    as (s' & Hs' & Hl).
  rewrite Hs' in Her. rewrite Her.
  cbn [outcome_of final calls with_instances instances].
  split; [reflexivity|]. split; [exact Hl|].
  destruct is_eto_eligible_v; reflexivity.
Qed.

Lemma publish_loop_quiet k owner es :
  (forall d, quiet listener d) ->
  forall w,
    storage_entities (instances (publish_loop k owner es w))
    = storage_entities (instances w) /\
    destruction (publish_loop k owner es w) = destruction w.
Proof.
  intros Hq. induction es as [|e t IH]; intros w; [now split|].
  unfold publish_loop in *. simpl.
  destruct (IH (invoke_all (sigh k w) owner e w)) as (Hi & Hd).
  assert (Hall : Forall (quiet listener) (sigh k w))
    by (apply Forall_forall; intros d _; apply Hq).
  rewrite Hi, Hd.
  split; [now apply quiet_entities_after | now apply quiet_destruction_after].
Qed.

(** X11: [insert] of a range and then the batch [erase] of the same range, with
    listeners that are all quiet: the pool holds the entities it held
    before.  On a pool that was empty the erasure is one [clear]; on any
    other pool it goes entity by entity. *)
Theorem insert_then_erase_range owner es args v w :
  (forall d, quiet listener d) ->
  existsb (fun e => storage_contains e (instances w)) es = false ->
  distinct es = true ->
  construct args = inr v ->
  let r := bind (insert owner es args) (fun _ => erase_range owner es) w in
  outcome_of r = Done tt /\
  Permutation (storage_entities (instances (final r)))
              (storage_entities (instances w)) /\
  (In StorageClear (calls r) <-> instances w = []).
Proof.
  intros Hq Hn Hd Hc r. subst r.
  set (stored := with_instances (instances w ++ map (fun e => (e, v)) es) w).
  assert (Hins : exists w1 l,
             insert owner es args w = Result (Done tt) w1 (StorageInsert es :: l)
             /\ storage_calls l = []
             /\ storage_entities (instances w1)
                = storage_entities (instances w) ++ es
             /\ destruction w1 = destruction w).
  { unfold insert.
    rewrite (bind_done _ _ _ _ _ _
               (storage_insert_run construct es args v w Hn Hd Hc)).
    fold stored.
    rewrite (bind_done _ _ _ _ _ _ (empty_run Construction stored)).
    cbn [sigh app].
    assert (Hst : storage_entities (instances stored)
                  = storage_entities (instances w) ++ es).
    { subst stored. cbn [with_instances instances].
      unfold storage_entities. rewrite map_app, map_map. simpl.
      now rewrite map_id. }
    destruct (construction stored) as [|d ds]; cbn [negb].
    - exists stored, []. repeat split. exact Hst.
    - destruct (for_each_publish (Exn := Exn) listener Construction owner es
                  stored) as (Ho & Hf & _ & Hsc).
      destruct (publish_loop_quiet Construction owner es Hq stored)
        as (Hi & Hdes).
      destruct (for_each es _ stored) as [o f l].
      cbn [outcome_of final calls] in *. subst o f.
      exists (publish_loop Construction owner es stored), l.
      repeat split; [exact Hsc | now rewrite Hi | exact Hdes]. }
  destruct Hins as (w1 & l & Hrun & Hl & Hents & Hdes).
  rewrite (bind_done _ _ _ _ _ _ Hrun).
  assert (Hqd : Forall (quiet listener) (destruction w1))
    by (apply Forall_forall; intros d _; apply Hq).
  destruct (instances w) as [|p t] eqn:Hw.
  - assert (Hlen : length es = storage_size (instances w1)).
    { unfold storage_size. now rewrite Hents. }
    rewrite (erase_range_fast listener owner es w1 Hlen).
    cbn [outcome_of final calls with_instances instances].
    split; [reflexivity|]. split; [apply Permutation_refl|].
    split; [reflexivity|]. intros _. right.
    apply in_or_app. right. apply in_or_app. right. now left.
  - assert (Hlen : length es <> storage_size (instances w1)).
    { unfold storage_size. rewrite Hents, length_app. simpl. lia. }
    rewrite (erase_range_slow listener owner es w1 Hlen).
    destruct (for_each_erase_trace owner es w1 Hqd (distinct_NoDup es Hd))
      as (Ho & Hcalls & _ & Hp).
    { intros x Hx. rewrite Hents. apply in_or_app. now right. }
    split; [exact Ho|]. split.
    + rewrite Hents in Hp.
      apply (Permutation_app_inv_l es).
      rewrite Hp. apply Permutation_app_comm.
    + split; [|discriminate].
      intros [Hin|Hin]; [discriminate|].
      apply in_app_or in Hin. destruct Hin as [Hin|Hin].
      * exfalso. clear - Hin Hl.
        induction l as [|ev l' IH]; [contradiction|].
        destruct ev; simpl in Hl; try discriminate.
        destruct Hin as [Hin|Hin]; [discriminate | now apply IH].
      * exfalso. rewrite Hcalls in Hin. unfold erase_trace in Hin.
        apply in_flat_map in Hin. destruct Hin as (x & _ & [H|[H|[]]]);
          discriminate.
Qed.

(** ** Batch insertion against repeated [emplace] *)

Lemma invoke_all_steady ds owner e :
  Forall (steady listener) ds ->
  forall w,
    instances (invoke_all ds owner e w) = instances w /\
    construction (invoke_all ds owner e w) = construction w.
Proof.
  induction 1 as [|d ds Hd _ IH]; intros w.
  - split; reflexivity.
  - unfold invoke_all in *. simpl.
    destruct (IH (listener d owner e w)) as (Hi & Hs).
    destruct (Hd owner e w) as (Hi' & Hs').
    split; congruence.
Qed.

Lemma for_each_publish_steady owner es :
  forall w,
    Forall (steady listener) (construction w) ->
    let r := for_each es (fun e => publish Construction owner e) w in
    invocations (calls r) = length es * length (construction w) /\
    instances (final r) = instances w /\
    construction (final r) = construction w.
Proof.
  induction es as [|e t IH]; intros w Hq r; subst r.
  - repeat split.
  - rewrite for_each_cons.
    rewrite (bind_done _ _ _ _ _ _ (publish_run listener Construction owner e w)).
    cbn [outcome_of final calls sigh].
    destruct (invoke_all_steady (construction w) owner e Hq w) as (Hi & Hs).
    destruct (IH (invoke_all (construction w) owner e w)) as (Hn & Hi' & Hs').
    { now rewrite Hs. }
    split; [|split].
    + simpl. rewrite Hn, Hs. reflexivity.
    + congruence.
    + congruence.
Qed.

(** Entity by entity with [emplace], with steady construction listeners. *)
Lemma emplace_each_run owner args v es :
  construct args = inr v ->
  forall w,
    Forall (steady listener) (construction w) ->
    existsb (fun e => storage_contains e (instances w)) es = false ->
    distinct es = true ->
    let r := emplace_each owner es args w in
    outcome_of r = Done tt /\
    instances (final r) = instances w ++ map (fun e => (e, v)) es /\
    construction (final r) = construction w /\
    invocations (calls r) = length es * length (construction w) /\
    signals (calls r) = map (fun e => (Construction, owner, e)) es.
Proof.
  intros Hc. induction es as [|e t IH]; intros w Hq Hn Hd r; subst r.
  - simpl. unfold ret. cbn [outcome_of final calls].
    rewrite app_nil_r. repeat split.
  - simpl in Hn, Hd.
    apply orb_false_elim in Hn. destruct Hn as (Hne & Hnt).
    apply andb_prop in Hd. destruct Hd as (Het & Hdt).
    apply negb_true_iff in Het.
    pose proof (emplace_run is_eto_eligible_v construct listener owner e args
                  v w Hne Hc) as Hrun. cbv zeta in Hrun.
    set (stored := with_instances (instances w ++ [(e, v)]) w) in *.
    set (after := invoke_all (construction w) owner e stored) in *.
    destruct (invoke_all_steady (construction w) owner e Hq stored)
      as (Hi & Hs).
    fold after in Hi, Hs.
    assert (Hget : storage_get e (instances after) = Some v).
    { rewrite Hi. apply storage_get_emplaced, Hne. }
    rewrite Hget in Hrun.
    assert (Hbody : bind (emplace owner e args) (fun _ => ret tt) w
                    = Result (Done tt) after
                        (StorageEmplace e
                           :: Publish Construction owner e (construction w)
                           :: (if is_eto_eligible_v then []
                               else [StorageGet e]))).
    { unfold bind. rewrite Hrun.
      destruct is_eto_eligible_v; cbn [outcome_of final calls ret];
        now rewrite app_nil_r. }
    unfold emplace_each. rewrite for_each_cons.
    rewrite (bind_done _ _ _ _ _ _ Hbody).
    destruct (IH after) as (Ho & Hinst & Hcon & Hinv & Hsig).
    { now rewrite Hs. }
    { rewrite Hi. subst stored. cbn [with_instances instances].
      apply not_true_is_false. intros Hex.
      apply existsb_exists in Hex. destruct Hex as (x & Hx & Hpres).
      rewrite storage_contains_app in Hpres.
      apply orb_prop in Hpres. destruct Hpres as [Hpres|Hpres].
      - assert (Hex : existsb (fun e0 => storage_contains e0 (instances w)) t
                      = true)
          by (apply existsb_exists; now exists x).
        congruence.
      - unfold storage_contains in Hpres. simpl in Hpres.
        rewrite orb_false_r in Hpres. apply N.eqb_eq in Hpres. subst x.
        assert (Hex : existsb (N.eqb e) t = true)
          by (apply existsb_exists; exists e; split;
              [assumption | apply N.eqb_refl]).
        congruence. }
    { exact Hdt. }
    fold (emplace_each owner t args after).
    cbn [outcome_of final calls].
    split; [exact Ho|]. split; [|split; [|split]].
    + rewrite Hinst, Hi. subst stored. cbn [with_instances instances].
      now rewrite <- app_assoc.
    + now rewrite Hcon.
    + rewrite Hs in Hinv.
      change (construction stored) with (construction w) in Hinv.
      destruct is_eto_eligible_v; cbn [app invocations]; rewrite Hinv;
        cbn [length]; lia.
    + destruct is_eto_eligible_v; simpl; now rewrite Hsig.
Qed.

(** X12: The batch [insert] against one [emplace] per entity of the range, with
    construction listeners that leave the storage and the construction
    hub alone: both store the same entries in the same order and invoke
    the listeners the same number of times, once per entity and listener;
    the batch form calls the storage once.  When no listener is
    registered the batch form publishes nothing at all, where [emplace]
    still publishes to the empty hub. *)
Theorem insert_matches_emplace_each owner es args v w :
  Forall (steady listener) (construction w) ->
  existsb (fun e => storage_contains e (instances w)) es = false ->
  distinct es = true ->
  construct args = inr v ->
  let batch := insert owner es args w in
  let single := emplace_each owner es args w in
  outcome_of batch = Done tt /\
  outcome_of single = Done tt /\
  instances (final batch) = instances w ++ map (fun e => (e, v)) es /\
  instances (final single) = instances (final batch) /\
  invocations (calls batch) = invocations (calls single) /\
  invocations (calls batch) = length es * length (construction w) /\
  storage_calls (calls batch) = [StorageInsert es] /\
  signals (calls single) = map (fun e => (Construction, owner, e)) es /\
  signals (calls batch)
  = match construction w with
    | [] => []
    | _ :: _ => signals (calls single)
    end.
Proof.
  intros Hq Hn Hd Hc batch single.
  destruct (emplace_each_run owner args v es Hc w Hq Hn Hd)
    as (Ho & Hinst & _ & Hinv & Hsig).
  fold single in Ho, Hinst, Hinv, Hsig.
  subst batch. unfold insert.
  rewrite (bind_done _ _ _ _ _ _
             (storage_insert_run construct es args v w Hn Hd Hc)).
  set (stored := with_instances (instances w ++ map (fun e => (e, v)) es) w).
  rewrite (bind_done _ _ _ _ _ _ (empty_run Construction stored)).
  cbn [sigh app].
  change (construction stored) with (construction w).
  destruct (construction w) as [|d ds] eqn:Hds; cbn [negb].
  - cbn [outcome_of final calls ret app].
    rewrite Hinst, Hinv, Hsig. simpl.
    repeat split; try exact Ho; lia.
  - destruct (for_each_publish (Exn := Exn) listener Construction owner es
                stored) as (Hbo & _ & Hbs & Hbc).
    destruct (for_each_publish_steady owner es stored) as (Hbn & Hbi & _).
    { change (construction stored) with (construction w). now rewrite Hds. }
    change (construction stored) with (construction w) in Hbn.
    rewrite Hds in Hbn.
    cbn [outcome_of final calls].
    rewrite Hbi, Hinst, Hinv, Hsig.
    split; [exact Hbo|]. split; [exact Ho|]. split; [reflexivity|].
    split; [reflexivity|].
    split; [simpl; exact Hbn|]. split; [simpl; exact Hbn|].
    split; [simpl; now rewrite Hbc|]. split; [reflexivity|].
    simpl. exact Hbs.
Qed.

(** X9: [patch] on a present entity of a type that is not of zero size, with
    update listeners that leave the storage alone: the pool holds the same
    entities in the same order, the instance of every other entity is what
    it was, and the result is the old instance with the functions applied
    from left to right. *)
Theorem patch_touches_one_instance owner e func v0 w :
  is_eto_eligible_v = false ->
  storage_get e (instances w) = Some v0 ->
  Forall (steady listener) (update w) ->
  let r := patch owner e func w in
  outcome_of r = Done (Some (fold_left (fun v f => f v) func v0)) /\
  storage_entities (instances (final r)) = storage_entities (instances w) /\
  (forall e', e' <> e ->
              storage_get e' (instances (final r))
              = storage_get e' (instances w)).
Proof.
  intros Heto Hget Hq r. subst r.
  rewrite (patch_run is_eto_eligible_v listener owner e func v0 w Heto Hget).
  cbn [outcome_of final calls].
  set (v1 := fold_left (fun v f => f v) func v0).
  set (patched := with_instances (storage_set e v1 (instances w)) w).
  destruct (invoke_all_steady (update w) owner e Hq patched) as (Hi & _).
  rewrite Hi. subst patched. cbn [with_instances instances].
  split; [|split].
  - rewrite storage_get_set; [reflexivity|].
    eapply storage_get_contains, Hget.
  - apply storage_entities_set.
  - intros e' Hne. now apply storage_get_set_other.
Qed.

(** X14: [insert] of an empty range whose instance could be constructed: one
    call of the storage, no signal even when listeners are registered, and
    the state is what it was. *)
Theorem insert_of_nothing owner args v w :
  construct args = inr v ->
  insert owner [] args w = Result (Done tt) w [StorageInsert []].
Proof.
  intros Hc. unfold insert.
  rewrite (bind_done _ _ _ _ _ _
             (storage_insert_run construct [] args v w eq_refl eq_refl Hc)).
  cbn [map]. rewrite app_nil_r, with_instances_same.
  rewrite (bind_done _ _ _ _ _ _ (empty_run Construction w)).
  now destruct (sigh Construction w).
Qed.

(** The storage after a batch [insert] with steady construction
    listeners. *)
Lemma insert_steady_run owner es args v w :
  Forall (steady listener) (construction w) ->
  existsb (fun e => storage_contains e (instances w)) es = false ->
  distinct es = true ->
  construct args = inr v ->
  outcome_of (insert owner es args w) = Done tt /\
  instances (final (insert owner es args w))
  = instances w ++ map (fun e => (e, v)) es.
Proof.
  intros Hq Hn Hd Hc. unfold insert.
  rewrite (bind_done _ _ _ _ _ _
             (storage_insert_run construct es args v w Hn Hd Hc)).
  set (stored := with_instances (instances w ++ map (fun e => (e, v)) es) w).
  rewrite (bind_done _ _ _ _ _ _ (empty_run Construction stored)).
  cbn [sigh app outcome_of final].
  change (construction stored) with (construction w).
  destruct (construction w) as [|d ds] eqn:Hds; cbn [negb].
  - split; reflexivity.
  - destruct (for_each_publish (Exn := Exn) listener Construction owner es
                stored) as (Hbo & _).
    destruct (for_each_publish_steady owner es stored) as (_ & Hbi & _).
    { change (construction stored) with (construction w). now rewrite Hds. }
    split; [exact Hbo | exact Hbi].
Qed.

(** X13: After a batch [insert] with steady construction listeners, every
    entity of the range is bound to the constructed instance, and every
    other entity is bound to what it was bound to before, or is still
    absent. *)
Theorem insert_then_lookup owner es args v w :
  Forall (steady listener) (construction w) ->
  existsb (fun e => storage_contains e (instances w)) es = false ->
  distinct es = true ->
  construct args = inr v ->
  let r := insert owner es args w in
  (forall e, In e es -> storage_get e (instances (final r)) = Some v) /\
  (forall e, ~ In e es ->
             storage_get e (instances (final r))
             = storage_get e (instances w)).
Proof.
  intros Hq Hn Hd Hc r. subst r.
  destruct (insert_steady_run owner es args v w Hq Hn Hd Hc) as (_ & Hi).
  rewrite Hi. split; intros e He; rewrite storage_get_app, storage_get_fresh.
  - assert (Hnew : storage_get e (instances w) = None).
    { apply storage_contains_get_none. apply not_true_is_false. intros Hp.
      assert (Hex : existsb (fun x => storage_contains x (instances w)) es
                    = true)
        by (apply existsb_exists; now exists e).
      congruence. }
    rewrite Hnew.
    assert (Hex : existsb (N.eqb e) es = true)
      by (apply existsb_exists; exists e; split;
          [assumption | apply N.eqb_refl]).
    now rewrite Hex.
  - assert (Hex : existsb (N.eqb e) es = false).
    { apply not_true_is_false. intros Hex.
      apply existsb_exists in Hex. destruct Hex as (x & Hx & Heq).
      apply N.eqb_eq in Heq. now subst x. }
    rewrite Hex. now destruct (storage_get e (instances w)).
Qed.

(** X5: The batch [erase] publishes only destruction signals, only with the
    registry it was given, only for entities of the range, in the order
    of the range and without a gap: whatever the range, the pool and the
    listeners, the signals published are those of an initial part of the
    range. *)
Theorem erase_range_signals_prefix owner es w :
  exists n,
    signals (calls (erase_range owner es w))
    = map (fun e => (Destruction, owner, e)) (firstn n es).
Proof.
  destruct (Nat.eq_dec (length es) (storage_size (instances w))) as [Hlen|Hlen].
  - rewrite (erase_range_fast listener owner es w Hlen).
    cbn [calls].
    destruct (signal_all_run (Exn := Exn) listener owner es w)
      as (_ & _ & Hs & _).
    rewrite signals_app, Hs. simpl. rewrite app_nil_r.
    destruct (destruction w).
    + now exists 0.
    + exists (length es). now rewrite firstn_all.
  - rewrite (erase_range_slow listener owner es w Hlen). clear Hlen.
    revert w. induction es as [|e t IH]; intros w.
    + now exists 0.
    + rewrite for_each_cons.
      pose proof (erase_run (Exn := Exn) listener owner e w) as Hrun.
      cbv zeta in Hrun. unfold bind. rewrite Hrun.
      cbn [outcome_of final calls].
      destruct (storage_erase e _) as [s'|x|]; cbn [calls].
      * destruct (IH (with_instances s'
                        (invoke_all (destruction w) owner e w))) as (n & Hn).
        exists (S n). simpl. now rewrite Hn.
      * now exists 1.
      * now exists 1.
Qed.

End PoolMore.

(** * Properties of the selection of a pool *)

Section TraitsFacts.

Import Traits.

Lemma qualified_eqb_eq (a b : qualified) :
  qualified_eqb a b = true <-> a = b.
Proof.
  destruct a as [n c v], b as [n' c' v']. unfold qualified_eqb. simpl.
  rewrite !andb_true_iff, Nat.eqb_eq, !Bool.eqb_true_iff.
  split.
  - intros ((-> & ->) & ->). reflexivity.
  - intros H. injection H as -> -> ->. auto.
Qed.

Lemma is_same_v_eq (a b : cpp_type) : is_same_v a b = true <-> a = b.
Proof.
  destruct a as [p|p|p], b as [q|q|q]; simpl;
    try (rewrite qualified_eqb_eq; split; intros H;
         [now subst | now injection H]);
    split; discriminate.
Qed.

(** X15: The pool selected for a component type passes the check of
    [default_pool] on its object type exactly when the component type is
    an object type that is not volatile: a const component type is
    accepted, its const being removed before [default_pool] is
    instantiated; a volatile or a reference type is refused. *)
Theorem pool_t_valid_iff (t : cpp_type) :
  valid_object_type (object_type (pool_t t)) = true
  <-> exists q, t = Object q /\ has_volatile q = false.
Proof.
  unfold valid_object_type. rewrite is_same_v_eq.
  destruct t as [[n c v]|q|q]; unfold pool_t; simpl.
  - destruct c; simpl; split.
    + intros H. injection H as ->. eexists. split; reflexivity.
    + intros (q & Hq & Hv). injection Hq as <-. simpl in Hv. now subst.
    + intros H. injection H as ->. eexists. split; reflexivity.
    + intros (q & Hq & Hv). injection Hq as <-. simpl in Hv. now subst.
  - split; [discriminate | intros (q' & Hq & _); discriminate].
  - split; [discriminate | intros (q' & Hq & _); discriminate].
Qed.

(** X16: A component type and its const-qualified form select the same
    instance of [default_pool]; the selected pool is const-qualified
    exactly when the component type is, and the view type is the pool
    type. *)
Theorem pool_t_of_const (n : nat) (v : bool) (t : cpp_type) :
  object_type (pool_t (Object (Qualified n true v)))
  = object_type (pool_t (Object (Qualified n false v))) /\
  const_qualified (pool_t t) = is_const_v t /\
  is_const_v (object_type (pool_t t)) = false /\
  view_t t = pool_t t.
Proof.
  split; [reflexivity|]. split; [|split; [|reflexivity]].
  - unfold pool_t. now destruct (is_const_v t).
  - unfold pool_t. destruct t as [[n' [|] v']|q|q]; reflexivity.
Qed.

End TraitsFacts.

(** * The further properties at work on the pool of natural numbers *)

Section MoreRuns.

Import Sample.

Local Open Scope N_scope.

Local Abbreviation emplace_each := (emplace_each false construct listener).
Local Abbreviation emplace := (emplace false construct listener).
Local Abbreviation insert := (insert construct listener).
Local Abbreviation erase := (erase (Exn := nat) listener).
Local Abbreviation erase_range := (erase_range (Exn := nat) listener).
Local Abbreviation patch := (patch (Exn := nat) false listener).

Lemma sample_quiet : forall d, quiet listener d.
Proof.
  intros [|[|d]] owner e w; simpl.
  - now split.
  - destruct (storage_get e (instances w)); [|now split].
    split; [apply storage_entities_set | reflexivity].
  - now split.
Qed.

Lemma probe_steady : Forall (steady listener) [probe].
Proof. constructor; [|constructor]. intros owner e w. now split. Qed.

Lemma erase_range_drops_unnamed_silently_witness :
  length [1; 7] = storage_size (instances probed) /\
  storage_contains 2 (instances probed) = true /\
  ~ In 2 [1; 7] /\
  signals (calls (erase_range 7%nat [1; 7] probed))
  = [(Destruction, 7%nat, 1); (Destruction, 7%nat, 7)] /\
  ~ In (Destruction, 7%nat, 2) (signals (calls (erase_range 7%nat [1; 7] probed))) /\
  storage_contains 2 (instances (final (erase_range 7%nat [1; 7] probed)))
  = false.
Proof.
  assert (Hout : ~ In 2 [1; 7])
    by (intros [H|[H|[]]]; discriminate H).
  destruct (erase_range_drops_unnamed_silently (Exn := nat) listener 7%nat
              [1; 7] 2 probed eq_refl eq_refl Hout) as (_ & Hsilent & Hgone).
  split; [reflexivity|]. split; [reflexivity|]. split; [exact Hout|].
  split; [reflexivity|]. split; [exact Hsilent | exact Hgone].
Defined.

Lemma erase_absent_signals_first_witness :
  storage_contains 9
    (instances (invoke_all listener (destruction probed) 7%nat 9 probed))
  = false /\
  outcome_of (erase 7%nat 9 probed) = Violation /\
  user (final (erase 7%nat 9 probed)) = [(9, false)] /\
  instances (final (erase 7%nat 9 probed)) = instances probed.
Proof.
  pose proof (erase_absent_signals_first (Exn := nat) listener 7%nat 9 probed
                eq_refl) as Hrun.
  split; [reflexivity|].
  fold erase in Hrun. rewrite Hrun.
  split; [reflexivity|]. split; reflexivity.
Defined.

Lemma rejected_insertion_signals_nothing_witness :
  construct 5 = inr 5%nat /\
  storage_contains 2 (instances probed) = true /\
  existsb (fun x => storage_contains x (instances probed)) [3; 3]
  || negb (distinct [3; 3]) = true /\
  outcome_of (emplace 7%nat 2 5%nat probed) = Violation /\
  calls (emplace 7%nat 2 5%nat probed) = [StorageEmplace 2] /\
  outcome_of (insert 7%nat [3; 3] 5%nat probed) = Violation /\
  calls (insert 7%nat [3; 3] 5%nat probed) = [StorageInsert [3; 3]].
Proof.
  destruct (rejected_insertion_signals_nothing false construct listener 7%nat
              2 [3; 3] 5%nat 5%nat probed eq_refl) as (Hone & Hmany).
  destruct (Hone eq_refl) as (Ho1 & Hc1 & _).
  destruct (Hmany eq_refl) as (Ho2 & Hc2 & _).
  split; [reflexivity|]. split; [reflexivity|]. split; [reflexivity|].
  split; [exact Ho1|]. split; [exact Hc1|]. split; [exact Ho2 | exact Hc2].
Defined.

Lemma patch_absent_entity_witness :
  storage_get 9 (instances probed) = None /\
  patch 7%nat 9 [fun v => v + 1]%nat probed
  = Result Violation probed [StorageGet 9] /\
  outcome_of (patch 7%nat 9 [] probed) = Violation /\
  user (final (patch 7%nat 9 [] probed)) = [(9, false)].
Proof.
  destruct (patch_absent_entity (Exn := nat) false listener 7%nat 9
              (fun v => v + 1)%nat [] probed eq_refl eq_refl)
    as (Hsome & Hnone).
  pose proof (Hnone eq_refl) as Hrun. fold patch in Hrun.
  split; [reflexivity|]. split; [exact Hsome|].
  rewrite Hrun. split; reflexivity.
Defined.

Lemma erase_range_partial_witness :
  Forall (quiet listener) (destruction probed) /\
  length [2] <> storage_size (instances probed) /\
  distinct [2] = true /\
  forallb (fun e => storage_contains e (instances probed)) [2] = true /\
  distinct (storage_entities (instances probed)) = true /\
  calls (erase_range 7%nat [2] probed)
  = [Publish Destruction 7%nat 2 [probe]; StorageErase 2] /\
  Permutation
    ([2] ++ storage_entities (instances (final (erase_range 7%nat [2] probed))))
    [1; 2] /\
  storage_contains 2 (instances (final (erase_range 7%nat [2] probed)))
  = false.
Proof.
  assert (Hne : length [2] <> storage_size (instances probed))
    by (intros H; discriminate H).
  destruct (erase_range_partial (Exn := nat) listener 7%nat [2] probed
              probe_quiet Hne eq_refl eq_refl) as (_ & Hcalls & Hperm & Hgone).
  split; [exact probe_quiet|]. split; [exact Hne|].
  split; [reflexivity|]. split; [reflexivity|]. split; [reflexivity|].
  split; [exact Hcalls|]. split; [exact Hperm|].
  apply (Hgone eq_refl). now left.
Defined.

Lemma erase_range_stops_at_absent_witness :
  Forall (quiet listener) (destruction probed) /\
  length ([1] ++ 9 :: [2]) <> storage_size (instances probed) /\
  distinct [1] = true /\
  forallb (fun x => storage_contains x (instances probed)) [1] = true /\
  storage_contains 9 (instances probed) = false /\
  outcome_of (erase_range 7%nat ([1] ++ 9 :: [2]) probed) = Violation /\
  calls (erase_range 7%nat ([1] ++ 9 :: [2]) probed)
  = [Publish Destruction 7%nat 1 [probe]; StorageErase 1;
     Publish Destruction 7%nat 9 [probe]; StorageErase 9] /\
  Permutation
    ([1] ++ storage_entities
              (instances (final (erase_range 7%nat ([1] ++ 9 :: [2]) probed))))
    [1; 2].
Proof.
  assert (Hne : length ([1] ++ 9 :: [2]) <> storage_size (instances probed))
    by (intros H; discriminate H).
  destruct (erase_range_stops_at_absent (Exn := nat) listener 7%nat [1] 9 [2]
              probed probe_quiet Hne eq_refl eq_refl eq_refl)
    as (Hout & Hcalls & Hperm).
  split; [exact probe_quiet|]. split; [exact Hne|].
  split; [reflexivity|]. split; [reflexivity|]. split; [reflexivity|].
  split; [exact Hout|]. split; [exact Hcalls | exact Hperm].
Defined.

Lemma emplace_then_erase_witness :
  storage_contains 3 (instances probed) = false /\
  construct 5 = inr 5%nat /\
  Forall (quiet listener) (construction probed) /\
  Forall (quiet listener) (destruction probed) /\
  outcome_of (bind (emplace 7%nat 3 5%nat) (fun _ => erase 7%nat 3) probed)
  = Done tt /\
  storage_entities
    (instances
       (final (bind (emplace 7%nat 3 5%nat) (fun _ => erase 7%nat 3) probed)))
  = [1; 2] /\
  signals (calls (bind (emplace 7%nat 3 5%nat) (fun _ => erase 7%nat 3) probed))
  = [(Construction, 7%nat, 3); (Destruction, 7%nat, 3)].
Proof.
  destruct (emplace_then_erase false construct listener 7%nat 3 5%nat 5%nat
              probed eq_refl eq_refl probe_quiet probe_quiet)
    as (Hdone & Hsame & Hsignals).
  split; [reflexivity|]. split; [reflexivity|].
  split; [exact probe_quiet|]. split; [exact probe_quiet|].
  split; [exact Hdone|]. split; [exact Hsame | exact Hsignals].
Defined.

Lemma insert_then_erase_range_witness :
  existsb (fun e => storage_contains e (instances bumped)) [3; 4] = false /\
  distinct [3; 4] = true /\
  construct 5 = inr 5%nat /\
  outcome_of
    (bind (insert 7%nat [3; 4] 5%nat) (fun _ => erase_range 7%nat [3; 4]) bumped)
  = Done tt /\
  Permutation
    (storage_entities
       (instances
          (final (bind (insert 7%nat [3; 4] 5%nat)
                       (fun _ => erase_range 7%nat [3; 4]) bumped))))
    [1; 2].
Proof.
  destruct (insert_then_erase_range construct listener 7%nat [3; 4] 5%nat
              5%nat bumped sample_quiet eq_refl eq_refl eq_refl)
    as (Hdone & Hperm & _).
  split; [reflexivity|]. split; [reflexivity|]. split; [reflexivity|].
  split; [exact Hdone | exact Hperm].
Defined.

Lemma insert_matches_emplace_each_witness :
  Forall (steady listener) (construction probed) /\
  existsb (fun e => storage_contains e (instances probed)) [3; 4] = false /\
  distinct [3; 4] = true /\
  construct 5 = inr 5%nat /\
  instances (final (emplace_each 7%nat [3; 4] 5%nat probed))
  = instances (final (insert 7%nat [3; 4] 5%nat probed)) /\
  invocations (calls (insert 7%nat [3; 4] 5%nat probed))
  = invocations (calls (emplace_each 7%nat [3; 4] 5%nat probed)) /\
  invocations (calls (insert 7%nat [3; 4] 5%nat probed)) = 2%nat.
Proof.
  destruct (insert_matches_emplace_each false construct listener 7%nat [3; 4]
              5%nat 5%nat probed probe_steady eq_refl eq_refl eq_refl)
    as (_ & _ & _ & Hsame & Hinv & Hcount & _).
  split; [exact probe_steady|].
  split; [reflexivity|]. split; [reflexivity|]. split; [reflexivity|].
  split; [exact Hsame|]. split; [exact Hinv | exact Hcount].
Defined.

Lemma patch_touches_one_instance_witness :
  storage_get 2 (instances probed) = Some 20%nat /\
  Forall (steady listener) (update probed) /\
  outcome_of (patch 7%nat 2 [fun v => v + 1; fun v => v * 2]%nat probed)
  = Done (Some 42%nat) /\
  storage_get 1
    (instances (final (patch 7%nat 2 [fun v => v + 1; fun v => v * 2]%nat probed)))
  = Some 10%nat.
Proof.
  destruct (patch_touches_one_instance (Exn := nat) false listener 7%nat 2
              [fun v => v + 1; fun v => v * 2]%nat 20%nat probed
              eq_refl eq_refl probe_steady) as (Hres & _ & Hothers).
  split; [reflexivity|]. split; [exact probe_steady|].
  split; [exact Hres|].
  assert (Hne : 1 <> 2) by discriminate.
  exact (Hothers 1 Hne).
Defined.

Lemma insert_of_nothing_witness :
  construct 5 = inr 5%nat /\
  insert 7%nat [] 5%nat probed = Result (Done tt) probed [StorageInsert []].
Proof.
  split; [reflexivity|].
  exact (insert_of_nothing construct listener 7%nat 5%nat 5%nat probed eq_refl).
Defined.

Lemma insert_then_lookup_witness :
  Forall (steady listener) (construction probed) /\
  existsb (fun e => storage_contains e (instances probed)) [3; 4] = false /\
  distinct [3; 4] = true /\
  construct 5 = inr 5%nat /\
  storage_get 4 (instances (final (insert 7%nat [3; 4] 5%nat probed)))
  = Some 5%nat /\
  storage_get 2 (instances (final (insert 7%nat [3; 4] 5%nat probed)))
  = Some 20%nat.
Proof.
  destruct (insert_then_lookup construct listener 7%nat [3; 4] 5%nat 5%nat
              probed probe_steady eq_refl eq_refl eq_refl) as (Hnew & Hold).
  split; [exact probe_steady|].
  split; [reflexivity|]. split; [reflexivity|]. split; [reflexivity|].
  split.
  - apply Hnew. right. now left.
  - apply Hold. intros [H|[H|[]]]; discriminate H.
Defined.

End MoreRuns.
